(** * The Explorer's discovery server ([core/explorer/discovery.go])

    A shallow embedding of the discovery server: the ledger scanner
    ([retrieveNetworkData]), one discovery pass ([runBackground]), the
    failure tracker ([failedToken], [deleteFailedConnections]) and the
    outer loop ([Start]), together with the properties of them that the
    specification states.

    Go values are modelled as follows.
    - A Go [string] is a byte sequence: Rocq's [string].
    - A Go [int] is a 64-bit signed integer: a [Z] with the wrap-around
      of [++] written out ([wrap_int]).
    - A Go [map[string]V] that is known to be allocated is a
      [gmap string V]; the [failures] field, which the constructor never
      allocates, is an [option (gmap string Z)] whose [None] is Go's nil
      map: reading, deleting from and ranging over a nil map are
      harmless, assigning to one panics.
    - A panic is the [Panic] result of the [result] type. *)

From Stdlib Require Import ZArith Lia Bool.
From stdpp Require Import base option list strings gmap fin_maps.

Local Open Scope string_scope.
Local Open Scope Z_scope.

(** ** The [strings] package functions the scanner calls *)

Module GoStrings.

(** [strings.HasPrefix s p]. *)
Fixpoint HasPrefix (s p : string) : bool :=
  match p, s with
  | EmptyString, _ => true
  | String _ _, EmptyString => false
  | String b p', String a s' => if Ascii.eqb a b then HasPrefix s' p' else false
  end.

(** [strings.Contains s substr]: [substr] occurs in [s] at some offset. *)
Fixpoint Contains (s substr : string) : bool :=
  HasPrefix s substr ||
  match s with
  | EmptyString => false
  | String _ s' => Contains s' substr
  end.

(** [strings.Split s sep] for a non-empty separator: the pieces of [s]
    between the successive, non-overlapping occurrences of [sep], scanning
    from the left.  [skip] counts the bytes of a separator that was just
    matched and still has to be stepped over; [cur] is the piece being
    accumulated. *)
Fixpoint SplitFrom (sep : string) (skip : nat) (cur : string) (s : string)
  : list string :=
  match s with
  | EmptyString => [cur]
  | String a s' =>
      match skip with
      | S k => SplitFrom sep k cur s'
      | O =>
          if HasPrefix s sep
          then cur :: SplitFrom sep (String.length sep - 1) EmptyString s'
          else SplitFrom sep O (cur +:+ String a EmptyString) s'
      end
  end.

Definition Split (s sep : string) : list string := SplitFrom sep 0 EmptyString s.

End GoStrings.

(** ** Results of code that may panic *)

Inductive result (A : Type) : Type :=
| Ok (a : A)
| Panic (msg : string).

Arguments Ok {A} a.
Arguments Panic {A} msg.

#[global] Instance result_ret : MRet result := @Ok.

#[global] Instance result_bind : MBind result := λ A B k r,
  match r with
  | Ok a => k a
  | Panic msg => Panic msg
  end.

(** A [for _, a := range l] loop whose body may panic. *)
Fixpoint forEach {S A : Type} (body : S → A → result S) (s : S) (l : list A)
  : result S :=
  match l with
  | [] => Ok s
  | a :: l' => s' ← body s a; forEach body s' l'
  end.

(** ** Go's [int] and Go's maps *)

(** The value of a 64-bit signed [int] after an arithmetic operation whose
    mathematical result is [z]. *)
Definition wrap_int (z : Z) : Z := (z + 2 ^ 63) `mod` 2 ^ 64 - 2 ^ 63.

Definition maxInt : Z := 2 ^ 63 - 1.

Definition minInt : Z := - 2 ^ 63.

Module GoMap.

(** A map variable: [None] is the nil map. *)
Definition t (V : Type) : Type := option (gmap string V).

(** [m[k]]: the zero value when [k] is absent or [m] is nil. *)
Definition get {V} (zero : V) (m : t V) (k : string) : V :=
  match m with
  | Some g => default zero (g !! k)
  | None => zero
  end.

(** The entry of [k], if [m] has one. *)
Definition entry {V} (m : t V) (k : string) : option V :=
  match m with
  | Some g => g !! k
  | None => None
  end.

(** [m[k] = v]: a run-time panic on the nil map. *)
Definition set {V} (m : t V) (k : string) (v : V) : result (t V) :=
  match m with
  | Some g => Ok (Some (<[k:=v]> g))
  | None => Panic "assignment to entry in nil map"
  end.

(** [delete(m, k)]: a no-op on the nil map. *)
Definition delete {V} (m : t V) (k : string) : t V :=
  match m with
  | Some g => Some (base.delete k g)
  | None => None
  end.

(** The entries a [for k, v := range m] visits, in one of the orders Go may
    choose; the nil map has none. *)
Definition range {V} (m : t V) : list (string * V) :=
  match m with
  | Some g => map_to_list g
  | None => []
  end.

End GoMap.

(** ** Data model *)

Record ClusterData : Type := {
  Workers : list string;
  Type' : string;
  NetworkID : string
}.

Record Network : Type := {
  Clusters : list ClusterData
}.

Record NetworkState : Type := {
  Networks : gmap string Network
}.

(** Modelled from the spec: the [p2p.NodeData] presence record, which the
    repository declares outside the files at hand.  It exposes an
    identifier and an online flag; [IsOnline] is the value of the
    [IsOnline()] call at the moment of the scan. *)
Record NodeData : Type := {
  ID : string;
  IsOnline : bool
}.

(** Modelled from the spec: what the scanner takes from the [p2p] package
    and from the ledger library.  [WorkerID] and [FederatedID] are the two
    well-known marker constants; [Data] is a raw ledger value and
    [Unmarshal] decodes one as a [NodeData], [None] being a decoding
    error. *)
Class P2P : Type := {
  WorkerID : string;
  FederatedID : string;
  Data : Type;
  Unmarshal : Data → option NodeData
}.

(** Modelled from the spec: the Token Store ([Database]), declared outside
    the files at hand.  [TokenList] supplies the tokens to probe, as a
    sequence, and [Delete] removes a token from the store. *)
Record Database : Type := {
  tokens : list string
}.

Definition TokenList (db : Database) : list string := tokens db.

Definition Delete (token : string) (db : Database) : Database :=
  {| tokens := filter (λ t, t ≠ token) (tokens db) |}.

(** The server.  [networkState] points to a [NetworkState] that the
    constructor allocates with an empty, non-nil [Networks] map and that is
    never reassigned, so the field is modelled by the state itself.
    [connectionTime] is a [time.Duration], in nanoseconds.  The mutex does
    not appear: the model runs the loop alone. *)
Record DiscoveryServer : Type := {
  database : Database;
  networkState : NetworkState;
  connectionTime : Z;
  failures : GoMap.t Z;
  errorThreshold : Z
}.

Definition with_database (db : Database) (s : DiscoveryServer) : DiscoveryServer :=
  {| database := db;
     networkState := networkState s;
     connectionTime := connectionTime s;
     failures := failures s;
     errorThreshold := errorThreshold s |}.

Definition with_networkState (ns : NetworkState) (s : DiscoveryServer)
  : DiscoveryServer :=
  {| database := database s;
     networkState := ns;
     connectionTime := connectionTime s;
     failures := failures s;
     errorThreshold := errorThreshold s |}.

Definition with_failures (f : GoMap.t Z) (s : DiscoveryServer) : DiscoveryServer :=
  {| database := database s;
     networkState := networkState s;
     connectionTime := connectionTime s;
     failures := f;
     errorThreshold := errorThreshold s |}.

Definition Second : Z := 1000000000.

(** [NewDiscoveryServer]: the literal sets four fields; [failures] keeps its
    zero value, the nil map. *)
Definition NewDiscoveryServer (db : Database) (dur : Z) (failureThreshold : Z)
  : DiscoveryServer :=
  let dur := if dur =? 0 then 50 * Second else dur in
  let failureThreshold := if failureThreshold =? 0 then 3 else failureThreshold in
  {| database := db;
     connectionTime := dur;
     networkState := {| Networks := ∅ |};
     errorThreshold := failureThreshold;
     failures := None |}.

(** ** The failure tracker *)

(** [failedToken]: [s.failures[token]++]. *)
Definition failedToken (token : string) (s : DiscoveryServer)
  : result DiscoveryServer :=
  f ← GoMap.set (failures s) token (wrap_int (GoMap.get 0 (failures s) token + 1));
  Ok (with_failures f s).

(** The body of the loop of [deleteFailedConnections] at the entry
    [(k, v)]. *)
Definition sweepEntry (s : DiscoveryServer) (kv : string * Z) : DiscoveryServer :=
  if errorThreshold s <? kv.2
  then with_failures (GoMap.delete (failures s) kv.1)
         (with_database (Delete kv.1 (database s)) s)
  else s.

(** The loop over a given sequence of entries. *)
Definition sweepOver (entries : list (string * Z)) (s : DiscoveryServer)
  : DiscoveryServer :=
  foldl sweepEntry s entries.

(** [deleteFailedConnections].  The loop deletes only the key it is
    visiting, so it visits every entry that the map has on entry, once. *)
Definition deleteFailedConnections (s : DiscoveryServer) : DiscoveryServer :=
  sweepOver (GoMap.range (failures s)) s.

(** ** The ledger scanner *)

(** Modelled from the spec: the storage of the ledger's latest block, a
    mapping from a key to the sequence of raw values under it (in the
    order the scanner's loop visits them). *)
Abbreviation Storage := (gmap string (list Data)).

Section Scanner.

Context `{P2P}.

Definition isWorkerCluster (d : string) : bool :=
  String.eqb d WorkerID
  || (GoStrings.Contains d "_" && GoStrings.Contains d WorkerID).

Definition isFederatedCluster (d : string) : bool :=
  String.eqb d FederatedID
  || (GoStrings.Contains d "_" && GoStrings.Contains d FederatedID).

Definition with_Workers (w : list string) (cd : ClusterData) : ClusterData :=
  {| Workers := w; Type' := Type' cd; NetworkID := NetworkID cd |}.

Definition with_Type (ty : string) (cd : ClusterData) : ClusterData :=
  {| Workers := Workers cd; Type' := ty; NetworkID := NetworkID cd |}.

Definition with_NetworkID (id : string) (cd : ClusterData) : ClusterData :=
  {| Workers := Workers cd; Type' := Type' cd; NetworkID := id |}.

(** The head of the [LEDGER] loop body for the key [d]: the [switch] and
    the [NetworkID] assignment.  Returns [toScanForWorkers] and [cd].
    [strings.Split(d, "_")[0]] indexes a slice that is never empty. *)
Definition classifyKey (d : string) : bool * ClusterData :=
  let cd := {| Workers := []; Type' := ""; NetworkID := "" |} in
  let '(toScanForWorkers, cd) :=
    if isWorkerCluster d then (true, with_Type "worker" cd)
    else if isFederatedCluster d then (true, with_Type "federated" cd)
    else (false, cd) in
  let cd :=
    if GoStrings.Contains d "_"
    then with_NetworkID (hd "" (GoStrings.Split d "_")) cd
    else cd in
  (toScanForWorkers, cd).

(** The body of the [DATA] loop at the raw value [v]. *)
Definition scanValue (st : bool * ClusterData) (v : Data) : bool * ClusterData :=
  match Unmarshal v with
  | None => st
  | Some nd =>
      if IsOnline nd
      then (true, with_Workers (Workers st.2 ++ [ID nd])%list st.2)
      else st
  end.

(** The [DATA] loop: returns [atLeastOneWorker] and [cd]. *)
Definition scanValues (cd : ClusterData) (vs : list Data) : bool * ClusterData :=
  foldl scanValue (false, cd) vs.

(** The whole [LEDGER] loop body for the key [d] with the values [vs]. *)
Definition scanKey (clusters : gmap string ClusterData) (d : string)
  (vs : list Data) : gmap string ClusterData :=
  let '(toScanForWorkers, cd) := classifyKey d in
  if negb toScanForWorkers then clusters
  else
    let '(atLeastOneWorker, cd) := scanValues cd vs in
    if atLeastOneWorker then <[d:=cd]> clusters else clusters.

(** The [LEDGER] loop over the entries of one storage sample, in the order
    given. *)
Definition scanEntries (clusters : gmap string ClusterData)
  (entries : list (string * list Data)) : gmap string ClusterData :=
  foldl (λ cl e, scanKey cl e.1 e.2) clusters entries.

(** One round of the sampling loop: the deadline has not fired and [data]
    is the storage read. *)
Definition scanStorage (clusters : gmap string ClusterData) (data : Storage)
  : gmap string ClusterData :=
  scanEntries clusters (map_to_list data).

(** [retrieveNetworkData] up to its deferred function: [samples] are the
    storages read by the successive rounds before the deadline fires; the
    result is the [clusters] map at that point. *)
Definition retrieveNetworkData (samples : list Storage)
  : gmap string ClusterData :=
  foldl scanStorage ∅ samples.

(** The deferred function sends the values of [clusters] in the order of
    Go's map iteration, which is not specified: the consumer may receive
    any arrangement of them. *)
Definition flushes (clusters : gmap string ClusterData)
  (received : list ClusterData) : Prop :=
  received ≡ₚ (map_to_list clusters).*2.

(** One such arrangement. *)
Definition flush (clusters : gmap string ClusterData) : list ClusterData :=
  (map_to_list clusters).*2.

(** The identifiers of the values that decode as an online node, in the
    words of the specification. *)
Definition onlineIDs (vs : list Data) : list string :=
  omap (λ v, nd ← Unmarshal v; if IsOnline nd then Some (ID nd) else None) vs.

End Scanner.

(** ** One discovery pass *)

(** What happens when the pass probes a token: one of the three connection
    stages fails, or the scanner runs and the pass receives [received]
    from the channel before it is closed. *)
Inductive Probe : Type :=
| NewNodeFails
| StartFails
| LedgerFails
| Scans (received : list ClusterData).

(** The loop draining the channel: returns [ledgerK] and [hasWorkers]. *)
Definition collect (received : list ClusterData) : list ClusterData * bool :=
  foldl (λ (st : list ClusterData * bool) key,
           ((st.1 ++ [key])%list, if (0 <? length (Workers key))%nat then true else st.2))
        ([], false) received.

(** The body of the loop of [runBackground] for [token]. *)
Definition probeToken (token : string) (p : Probe) (s : DiscoveryServer)
  : result DiscoveryServer :=
  match p with
  | NewNodeFails => failedToken token s
  | StartFails => failedToken token s
  | LedgerFails => failedToken token s
  | Scans received =>
      let '(ledgerK, hasWorkers) := collect received in
      if hasWorkers
      then
        Ok (with_failures (GoMap.delete (failures s) token)
              (with_networkState
                 {| Networks :=
                      <[token := {| Clusters := ledgerK |}]>
                        (Networks (networkState s)) |} s))
      else failedToken token s
  end.

(** [runBackground]; [net] tells what probing each token meets during this
    pass. *)
Definition runBackground (net : string → Probe) (s : DiscoveryServer)
  : result DiscoveryServer :=
  if (length (TokenList (database s)) =? 0)%nat then Ok s
  else
    s' ← forEach (λ s token, probeToken token (net token) s) s
           (TokenList (database s));
    Ok (deleteFailedConnections s').

(** ** The outer loop *)

(** How a run of [Start] ends: it returns an error, the goroutine panics,
    or the loop is still going when the model's fuel is spent. *)
Inductive StartResult : Type :=
| Returned (err : string) (s : DiscoveryServer)
| Crashed (msg : string)
| StillRunning (s : DiscoveryServer).

(** [Start], for at most [fuel] iterations from iteration [i] on.
    [ctxDone i] tells whether [ctx.Done()] is ready at iteration [i], and
    [net i] is the network met by the pass of iteration [i]. *)
Fixpoint Start (ctxDone : nat → bool) (net : nat → string → Probe)
  (fuel : nat) (i : nat) (s : DiscoveryServer) : StartResult :=
  match fuel with
  | O => StillRunning s
  | S fuel' =>
      if ctxDone i then Returned "context cancelled" s
      else
        match runBackground (net i) s with
        | Ok s' => Start ctxDone net fuel' (S i) s'
        | Panic msg => Crashed msg
        end
  end.

(** [n] passes in a row, from iteration [i] on. *)
Fixpoint passes (net : nat → string → Probe) (i n : nat) (s : DiscoveryServer)
  : result DiscoveryServer :=
  match n with
  | O => Ok s
  | S n' => s' ← runBackground (net i) s; passes net (S i) n' s'
  end.

(** ** Reachable states *)

(** A pass is sound when what it receives for a token was sent by the
    scanner. *)
Definition sound `{P2P} (net : string → Probe) : Prop :=
  ∀ token received,
    net token = Scans received →
    ∃ samples, flushes (retrieveNetworkData samples) received.

(** The states of a server built by [NewDiscoveryServer] and driven by
    completed passes, the Token Store changing at will in between. *)
Inductive reachable `{P2P} : DiscoveryServer → Prop :=
| reachable_new db dur failureThreshold :
    reachable (NewDiscoveryServer db dur failureThreshold)
| reachable_pass s s' net :
    reachable s → sound net → runBackground net s = Ok s' → reachable s'
| reachable_store s db :
    reachable s → reachable (with_database db s).

(** Every cluster held in the network state has a worker. *)
Definition workers_nonempty (s : DiscoveryServer) : Prop :=
  ∀ token n cd,
    Networks (networkState s) !! token = Some n →
    cd ∈ Clusters n → Workers cd ≠ [].

(** Every cluster held in the network state satisfies [P]. *)
Definition clusters_satisfy (P : ClusterData → Prop) (s : DiscoveryServer)
  : Prop :=
  ∀ token n cd,
    Networks (networkState s) !! token = Some n →
    cd ∈ Clusters n → P cd.

(** A cluster as the scanner types it: worker or federated, with a
    NetworkID that has no underscore. *)
Definition well_typed (cd : ClusterData) : Prop :=
  (Type' cd = "worker" ∨ Type' cd = "federated") ∧
  ¬ (∃ a b, NetworkID cd = a +:+ "_" +:+ b).

(** ** A concrete setting for examples *)

(** The markers the specification gives as examples; a raw value is either
    undecodable or the node it decodes to. *)
Definition demoP2P : P2P :=
  {| WorkerID := "WORKER_ID";
     FederatedID := "FEDERATED_ID";
     Data := option NodeData;
     Unmarshal := λ v, v |}.

Definition online (id : string) : option NodeData :=
  Some {| ID := id; IsOnline := true |}.

Definition offline (id : string) : option NodeData :=
  Some {| ID := id; IsOnline := false |}.

Definition garbage : option NodeData := None.

Definition demoCluster : ClusterData :=
  {| Workers := ["w1"]; Type' := "worker"; NetworkID := "net1" |}.

(** A server that tracks three tokens: [net2] has failed four times and
    [net3] three times, with a threshold of three, and a snapshot of
    [net2] is held from an earlier pass. *)
Definition demoServer : DiscoveryServer :=
  {| database := {| tokens := ["net1"; "net2"; "net3"] |};
     networkState :=
       {| Networks := {[ "net2" := {| Clusters := [demoCluster] |} ]} |};
     connectionTime := 50 * Second;
     failures := Some {[ "net2" := 4; "net3" := 3 ]};
     errorThreshold := 3 |}.

(** The ledger of the scenario of the specification: one worker key of
    network [net1] with one online node. *)
Definition demoLedger : list (gmap string (list (option NodeData))) :=
  [ {[ "net1_WORKER_ID" := [online "w1"] ]} ].

(** Probing any token scans that ledger. *)
Definition demoNet : string → Probe :=
  λ _, Scans (flush (retrieveNetworkData (H := demoP2P) demoLedger)).

Definition demoNew : DiscoveryServer :=
  NewDiscoveryServer {| tokens := ["net1"] |} 0 0.

Definition demoAfter : DiscoveryServer :=
  with_networkState
    {| Networks := {[ "net1" := {| Clusters := [demoCluster] |} ]} |} demoNew.

(** A server with an empty store and a stale counter above the
    threshold. *)
Definition demoIdle : DiscoveryServer :=
  with_failures (Some {[ "old" := 10 ]})
    (NewDiscoveryServer {| tokens := [] |} 0 0).

(** [demoServer] after a pass in which every token fails to connect:
    [net1] has its first failure, [net2] and [net3] are evicted. *)
Definition demoSwept : DiscoveryServer :=
  {| database := {| tokens := ["net1"] |};
     networkState :=
       {| Networks := {[ "net2" := {| Clusters := [demoCluster] |} ]} |};
     connectionTime := 50 * Second;
     failures := Some {[ "net1" := 1 ]};
     errorThreshold := 3 |}.

(** A server whose only counter has reached the largest [int]. *)
Definition demoSaturated : DiscoveryServer :=
  with_failures (Some {[ "net1" := maxInt ]}) demoNew.

(** Two rounds: [w1] is online in the first, and in the second [w1] has
    gone offline while [w2] is online under a federated key. *)
Definition demoRounds : list (gmap string (list (option NodeData))) :=
  [ {[ "net1_WORKER_ID" := [online "w1"] ]};
    {[ "net1_WORKER_ID" := [offline "w1"];
       "net1_FEDERATED_ID" := [garbage; online "w2"] ]} ].

(** The server of [NewDiscoveryServer] with its failure map allocated, as
    the failure tracker needs it. *)
Definition allocated (s : DiscoveryServer) : DiscoveryServer :=
  with_failures (Some ∅) s.

(** ** The vocabulary of the specification *)

(** [sub] occurs in [s]. *)
Definition substring (sub s : string) : Prop :=
  ∃ a b, s = a +:+ sub +:+ b.

(** The two rules for ledger keys. *)
Definition workerKey `{P2P} (d : string) : Prop :=
  d = WorkerID ∨ (substring "_" d ∧ substring WorkerID d).

Definition federatedKey `{P2P} (d : string) : Prop :=
  d = FederatedID ∨ (substring "_" d ∧ substring FederatedID d).

(** [pre] is what precedes the first ["_"] of [d]. *)
Definition before_first_underscore (pre d : string) : Prop :=
  ¬ substring "_" pre ∧ ∃ rest, d = pre +:+ "_" +:+ rest.

(** The sweep over [entries] meets an entry of [k] above the threshold. *)
Definition evicted (threshold : Z) (entries : list (string * Z)) (k : string)
  : Prop :=
  Exists (λ kv, kv.1 = k ∧ threshold < kv.2) entries.

(** A probe that ends in a recorded failure: a connection stage fails, or
    the scan yields no cluster with a worker. *)
Definition fails (p : Probe) : Prop :=
  match p with
  | Scans received => ∀ cd, cd ∈ received → Workers cd = []
  | _ => True
  end.

(** The values under a key none of which decodes as an online node. *)
Definition no_online `{P2P} (vs : list Data) : Prop :=
  ∀ v nd, v ∈ vs → Unmarshal v = Some nd → IsOnline nd = false.

Definition nonempty {A : Type} (l : list A) : bool :=
  match l with
  | [] => false
  | _ :: _ => true
  end.

(** * Properties *)

(** ** Strings *)

Lemma append_nil_l (s : string) : "" +:+ s = s.
Proof. reflexivity. Qed.

Lemma append_cons (a : Ascii.ascii) (s t : string) :
  String a s +:+ t = String a (s +:+ t).
Proof. reflexivity. Qed.

Lemma append_nil_r (s : string) : s +:+ "" = s.
Proof. induction s as [|a s IH]; [done | by rewrite append_cons, IH]. Qed.

Lemma append_assoc (a b c : string) : (a +:+ b) +:+ c = a +:+ (b +:+ c).
Proof. induction a as [|x a IH]; [done | by rewrite !append_cons, IH]. Qed.

Lemma HasPrefix_nil (s : string) : GoStrings.HasPrefix s "" = true.
Proof. by destruct s. Qed.

Lemma HasPrefix_spec (s p : string) :
  GoStrings.HasPrefix s p = true ↔ ∃ r, s = p +:+ r.
Proof.
  revert s. induction p as [|b p IH]; intros s.
  - split; [intros _; by exists s | by destruct s].
  - destruct s as [|a s].
    + split; [done | intros [r Hr]; discriminate].
    + setoid_rewrite append_cons. cbn [GoStrings.HasPrefix].
      destruct (Ascii.eqb_spec a b) as [->|Hne].
      * rewrite IH. split; intros [r Hr]; exists r; congruence.
      * split; [done | intros [r Hr]; congruence].
Qed.

Lemma Contains_spec (s sub : string) :
  GoStrings.Contains s sub = true ↔ substring sub s.
Proof.
  unfold substring. induction s as [|x s IH]; cbn [GoStrings.Contains].
  - rewrite orb_false_r, HasPrefix_spec. split.
    + intros [r Hr]. by exists "", r.
    + intros ([|y a] & b & Hab); [by exists b | discriminate].
  - rewrite orb_true_iff, HasPrefix_spec, IH. split.
    + intros [[r Hr] | (a & b & Hab)].
      * by exists "", r.
      * exists (String x a), b. by rewrite append_cons, Hab.
    + intros ([|y a] & b & Hab).
      * left. by exists b.
      * right. exists a, b. rewrite append_cons in Hab. congruence.
Qed.

Lemma Contains_false (s sub : string) :
  GoStrings.Contains s sub = false ↔ ¬ substring sub s.
Proof. rewrite <- Contains_spec. by destruct (GoStrings.Contains s sub). Qed.

Lemma SplitFrom_nonempty (sep : string) (s : string) :
  ∀ skip cur, GoStrings.SplitFrom sep skip cur s ≠ [].
Proof.
  induction s as [|a s IH]; intros skip cur; [done |].
  cbn [GoStrings.SplitFrom]. destruct skip; [| apply IH].
  case (GoStrings.HasPrefix (String a s) sep); [done | apply IH].
Qed.

(** The first piece of a split at ["_"] is what precedes the first
    underscore. *)
Lemma SplitFrom_underscore_hd (s : string) :
  ∀ cur,
    GoStrings.Contains s "_" = true →
    ∃ pre rest,
      s = pre +:+ "_" +:+ rest ∧
      GoStrings.Contains pre "_" = false ∧
      hd "" (GoStrings.SplitFrom "_" 0 cur s) = cur +:+ pre.
Proof.
  induction s as [|a s IH]; intros cur; [discriminate |].
  cbn [GoStrings.SplitFrom GoStrings.Contains GoStrings.HasPrefix].
  rewrite HasPrefix_nil.
  match goal with
  | |- context [Ascii.eqb a ?c] => destruct (Ascii.eqb_spec a c) as [->|Hne]
  end.
  - intros _. exists "", s. split_and!; [done | done |].
    cbn [hd]. by rewrite append_nil_r.
  - rewrite orb_false_l. intros Hc.
    destruct (IH (cur +:+ String a "") Hc) as (pre & rest & -> & Hpre & Hhd).
    exists (String a pre), rest. split_and!; [done | |].
    + cbn [GoStrings.Contains GoStrings.HasPrefix].
      rewrite HasPrefix_nil, Hpre.
      apply Ascii.eqb_neq in Hne. by rewrite Hne.
    + by rewrite Hhd, append_assoc.
Qed.

Lemma Split_underscore_hd (d : string) :
  GoStrings.Contains d "_" = true →
  before_first_underscore (hd "" (GoStrings.Split d "_")) d.
Proof.
  intros Hc.
  destruct (SplitFrom_underscore_hd d "" Hc) as (pre & rest & Hd & Hpre & Hhd).
  unfold GoStrings.Split. rewrite Hhd, append_nil_l. split.
  - by apply Contains_false.
  - by exists rest.
Qed.

(** ** The ledger scanner *)

Section ScannerProperties.

Context `{P2P}.

Lemma isWorkerCluster_spec (d : string) : isWorkerCluster d = true ↔ workerKey d.
Proof.
  unfold isWorkerCluster, workerKey.
  by rewrite orb_true_iff, andb_true_iff, String.eqb_eq, !Contains_spec.
Qed.

Lemma isFederatedCluster_spec (d : string) :
  isFederatedCluster d = true ↔ federatedKey d.
Proof.
  unfold isFederatedCluster, federatedKey.
  by rewrite orb_true_iff, andb_true_iff, String.eqb_eq, !Contains_spec.
Qed.

Lemma classifyKey_toScan (d : string) :
  (classifyKey d).1 = isWorkerCluster d || isFederatedCluster d.
Proof.
  unfold classifyKey.
  by destruct (isWorkerCluster d), (isFederatedCluster d).
Qed.

Lemma classifyKey_Type (d : string) :
  Type' (classifyKey d).2 =
    if isWorkerCluster d then "worker"
    else if isFederatedCluster d then "federated" else "".
Proof.
  unfold classifyKey.
  by destruct (isWorkerCluster d), (isFederatedCluster d),
       (GoStrings.Contains d "_").
Qed.

Lemma classifyKey_NetworkID (d : string) :
  NetworkID (classifyKey d).2 =
    if GoStrings.Contains d "_" then hd "" (GoStrings.Split d "_") else "".
Proof.
  unfold classifyKey.
  by destruct (isWorkerCluster d), (isFederatedCluster d),
       (GoStrings.Contains d "_").
Qed.

Lemma classifyKey_Workers (d : string) : Workers (classifyKey d).2 = [].
Proof.
  unfold classifyKey.
  by destruct (isWorkerCluster d), (isFederatedCluster d),
       (GoStrings.Contains d "_").
Qed.

Lemma with_Workers_same (cd : ClusterData) : with_Workers (Workers cd) cd = cd.
Proof. by destruct cd. Qed.

Lemma onlineIDs_cons (v : Data) (vs : list Data) :
  onlineIDs (v :: vs) =
    match Unmarshal v with
    | Some nd => if IsOnline nd then ID nd :: onlineIDs vs else onlineIDs vs
    | None => onlineIDs vs
    end.
Proof.
  unfold onlineIDs. cbn.
  destruct (Unmarshal v) as [nd|]; cbn; [| done].
  by destruct (IsOnline nd).
Qed.

(** The [DATA] loop, from any intermediate state: it appends the online
    identifiers and raises the flag when there is one. *)
Lemma scanValues_from (vs : list Data) :
  ∀ b cd,
    foldl scanValue (b, cd) vs =
      (b || nonempty (onlineIDs vs),
       with_Workers (Workers cd ++ onlineIDs vs) cd).
Proof.
  induction vs as [|v vs IH]; intros b cd.
  - cbn. by rewrite orb_false_r, app_nil_r, with_Workers_same.
  - cbn [foldl]. rewrite onlineIDs_cons. unfold scanValue at 2.
    destruct (Unmarshal v) as [nd|]; [| apply IH].
    destruct (IsOnline nd); [| apply IH].
    rewrite IH. cbn. by rewrite orb_true_r, <- app_assoc.
Qed.

Lemma scanValues_spec (cd : ClusterData) (vs : list Data) :
  scanValues cd vs =
    (nonempty (onlineIDs vs), with_Workers (Workers cd ++ onlineIDs vs) cd).
Proof. unfold scanValues. by rewrite scanValues_from. Qed.

Lemma scanKey_spec (clusters : gmap string ClusterData) (d : string)
  (vs : list Data) :
  scanKey clusters d vs =
    if (classifyKey d).1 && nonempty (onlineIDs vs)
    then <[d := with_Workers (onlineIDs vs) (classifyKey d).2]> clusters
    else clusters.
Proof.
  unfold scanKey.
  pose proof (classifyKey_Workers d) as Hw.
  destruct (classifyKey d) as [[] cd]; cbn in *; [| done].
  rewrite scanValues_spec, Hw. cbn.
  by destruct (nonempty (onlineIDs vs)).
Qed.

Lemma onlineIDs_nil (vs : list Data) : onlineIDs vs = [] ↔ no_online vs.
Proof.
  unfold no_online. induction vs as [|v vs IH].
  - split; [intros _ v nd Hv; by apply elem_of_nil in Hv | done].
  - rewrite onlineIDs_cons.
    destruct (Unmarshal v) as [nd|] eqn:Hv.
    + destruct (IsOnline nd) eqn:Hon.
      * split; [done | intros Hall].
        specialize (Hall v nd (list_elem_of_here _ _) Hv). congruence.
      * rewrite IH. split.
        -- intros Hall v' nd' [->|Hin]%elem_of_cons Hv'; [congruence | eauto].
        -- intros Hall v' nd' Hin. apply Hall. by right.
    + rewrite IH. split.
      * intros Hall v' nd' [->|Hin]%elem_of_cons Hv'; [congruence | eauto].
      * intros Hall v' nd' Hin. apply Hall. by right.
Qed.

Lemma scanKey_lookup_ne (clusters : gmap string ClusterData) (d d' : string)
  (vs : list Data) :
  d' ≠ d → scanKey clusters d' vs !! d = clusters !! d.
Proof.
  intros Hne. rewrite scanKey_spec.
  destruct (_ && _); [by rewrite lookup_insert_ne | done].
Qed.

Lemma scanEntries_cons (clusters : gmap string ClusterData)
  (e : string * list Data) (entries : list (string * list Data)) :
  scanEntries clusters (e :: entries) =
    scanEntries (scanKey clusters e.1 e.2) entries.
Proof. reflexivity. Qed.

(** A key that is not classified, or that has no online value wherever it
    occurs, keeps the entry it had. *)
Lemma scanEntries_lookup_kept (d : string) (entries : list (string * list Data)) :
  ∀ clusters,
    (∀ vs, (d, vs) ∈ entries →
           (classifyKey d).1 && nonempty (onlineIDs vs) = false) →
    scanEntries clusters entries !! d = clusters !! d.
Proof.
  induction entries as [|[d' vs'] entries IH]; intros clusters Hall; [done |].
  rewrite scanEntries_cons, IH; cbn [fst snd].
  - destruct (decide (d' = d)) as [->|Hne]; [| by apply scanKey_lookup_ne].
    rewrite scanKey_spec, Hall; [done | by left].
  - intros vs Hin. apply Hall. by right.
Qed.

Lemma retrieveNetworkData_lookup_none (d : string) (samples : list Storage) :
  (∀ data vs, data ∈ samples → data !! d = Some vs →
              (classifyKey d).1 && nonempty (onlineIDs vs) = false) →
  retrieveNetworkData samples !! d = None.
Proof.
  unfold retrieveNetworkData.
  assert (∀ clusters : gmap string ClusterData,
            (∀ data vs, data ∈ samples → data !! d = Some vs →
               (classifyKey d).1 && nonempty (onlineIDs vs) = false) →
            foldl scanStorage clusters samples !! d = clusters !! d) as Hgen.
  { induction samples as [|data samples IH]; intros clusters Hall; [done |].
    cbn [foldl]. rewrite IH.
    - unfold scanStorage. apply scanEntries_lookup_kept.
      intros vs Hin%elem_of_map_to_list. eapply Hall; [by left | done].
    - intros data' vs Hin. apply Hall. by right. }
  intros Hall. by rewrite Hgen.
Qed.

(** The entry of a key after one round, whatever the order in which the
    keys of the storage are visited. *)
Lemma scanEntries_lookup (d : string) (entries : list (string * list Data)) :
  NoDup entries.*1 →
  ∀ clusters,
    scanEntries clusters entries !! d =
      match (list_to_map entries : gmap string (list Data)) !! d with
      | Some vs => scanKey clusters d vs !! d
      | None => clusters !! d
      end.
Proof.
  induction entries as [|[d' vs'] entries IH]; intros Hnd clusters; [done |].
  apply NoDup_cons in Hnd as [Hnotin Hnd].
  rewrite scanEntries_cons, IH by done. cbn [fst snd list_to_map foldr].
  destruct (decide (d' = d)) as [->|Hne].
  - rewrite lookup_insert_eq.
    by rewrite (not_elem_of_list_to_map_1 (M := gmap string) entries d).
  - rewrite lookup_insert_ne by done.
    destruct (list_to_map entries !! d) as [vs|]; [| by apply scanKey_lookup_ne].
    rewrite !(scanKey_spec _ d).
    destruct (_ && _); [by rewrite !lookup_insert_eq |].
    by apply scanKey_lookup_ne.
Qed.

(** One round gives the same clusters in whatever order Go visits the
    keys of the storage. *)
Lemma scanStorage_any_order (clusters : gmap string ClusterData)
  (data : Storage) (entries : list (string * list Data)) :
  entries ≡ₚ map_to_list data →
  scanEntries clusters entries = scanStorage clusters data.
Proof.
  intros Hp. apply map_eq. intros d. unfold scanStorage.
  assert (NoDup (map_to_list data).*1) as Hnd by apply NoDup_fst_map_to_list.
  assert (NoDup entries.*1) as Hnd' by (by rewrite Hp).
  rewrite !scanEntries_lookup by done.
  by rewrite (list_to_map_proper (M := gmap string) entries _ Hnd' Hp).
Qed.

(** Every cluster the scanner accumulates has a worker. *)
Lemma scanKey_nonempty (clusters : gmap string ClusterData) (d : string)
  (vs : list Data) :
  map_Forall (λ _ cd, Workers cd ≠ []) clusters →
  map_Forall (λ _ cd, Workers cd ≠ []) (scanKey clusters d vs).
Proof.
  intros Hall. rewrite scanKey_spec.
  destruct (classifyKey d).1; cbn; [| done].
  destruct (onlineIDs vs) as [|id ids] eqn:Hids; cbn; [done |].
  by apply map_Forall_insert_2.
Qed.

Lemma scanEntries_nonempty (entries : list (string * list Data)) :
  ∀ clusters,
    map_Forall (λ _ cd, Workers cd ≠ []) clusters →
    map_Forall (λ _ cd, Workers cd ≠ []) (scanEntries clusters entries).
Proof.
  induction entries as [|e entries IH]; intros clusters Hall; [done |].
  rewrite scanEntries_cons. by apply IH, scanKey_nonempty.
Qed.

Lemma retrieveNetworkData_nonempty (samples : list Storage) :
  map_Forall (λ _ cd, Workers cd ≠ []) (retrieveNetworkData samples).
Proof.
  unfold retrieveNetworkData.
  assert (∀ clusters : gmap string ClusterData,
            map_Forall (λ _ cd, Workers cd ≠ []) clusters →
            map_Forall (λ _ cd, Workers cd ≠ [])
              (foldl scanStorage clusters samples)) as Hgen.
  { induction samples as [|data samples IH]; intros clusters Hall; [done |].
    apply IH. by apply scanEntries_nonempty. }
  apply Hgen, map_Forall_empty.
Qed.

Lemma flushes_nonempty (samples : list Storage) (received : list ClusterData) :
  flushes (retrieveNetworkData samples) received →
  Forall (λ cd, Workers cd ≠ []) received.
Proof.
  unfold flushes. intros Hperm. apply Forall_forall. intros cd Hin.
  rewrite Hperm in Hin.
  apply list_elem_of_fmap in Hin as ([k cd'] & -> & Hin).
  apply elem_of_map_to_list in Hin.
  by apply (retrieveNetworkData_nonempty samples k cd').
Qed.

Lemma flush_flushes (clusters : gmap string ClusterData) :
  flushes clusters (flush clusters).
Proof. by unfold flushes, flush. Qed.

Lemma classifyKey_toScan_spec (d : string) :
  (classifyKey d).1 = true ↔ workerKey d ∨ federatedKey d.
Proof.
  rewrite <- isWorkerCluster_spec, <- isFederatedCluster_spec, classifyKey_toScan.
  apply orb_true_iff.
Qed.

Lemma classifyKey_Type_worker (d : string) :
  Type' (classifyKey d).2 = "worker" ↔ workerKey d.
Proof.
  rewrite <- isWorkerCluster_spec, classifyKey_Type.
  by destruct (isWorkerCluster d), (isFederatedCluster d).
Qed.

Lemma classifyKey_Type_federated (d : string) :
  Type' (classifyKey d).2 = "federated" ↔ federatedKey d ∧ ¬ workerKey d.
Proof.
  rewrite <- isWorkerCluster_spec, <- isFederatedCluster_spec, classifyKey_Type.
  destruct (isWorkerCluster d), (isFederatedCluster d); intuition congruence.
Qed.

Lemma retrieveNetworkData_one_key (d : string) (vs : list Data) :
  retrieveNetworkData [{[d := vs]}] = scanKey ∅ d vs.
Proof.
  unfold retrieveNetworkData, scanStorage. cbn [foldl].
  by rewrite map_to_list_singleton.
Qed.

(** C5 (as amended).  The scanner scans a ledger key exactly when the key
    is a worker-cluster key (it equals the worker marker, or contains an
    underscore and the worker marker) or a federated-cluster key (the same
    rule with the federated marker).  It types the cluster as worker
    exactly when the key is a worker-cluster key, and as federated exactly
    when the key is a federated-cluster key that is not also a
    worker-cluster key: the worker rule wins.  The NetworkID is what
    precedes the first underscore when the key has one and is empty
    otherwise.  A ClusterData produced for the key carries this type and
    this NetworkID, and no ClusterData is ever produced for a key that
    satisfies neither rule. *)
Theorem classifyKey_rules (d : string) :
  ((classifyKey d).1 = true ↔ workerKey d ∨ federatedKey d) ∧
  (Type' (classifyKey d).2 = "worker" ↔ workerKey d) ∧
  (Type' (classifyKey d).2 = "federated" ↔ federatedKey d ∧ ¬ workerKey d) ∧
  (substring "_" d → before_first_underscore (NetworkID (classifyKey d).2) d) ∧
  (¬ substring "_" d → NetworkID (classifyKey d).2 = "") ∧
  (∀ clusters vs,
     scanKey clusters d vs = clusters ∨
     scanKey clusters d vs =
       <[d := {| Workers := onlineIDs vs;
                 Type' := Type' (classifyKey d).2;
                 NetworkID := NetworkID (classifyKey d).2 |}]> clusters) ∧
  (¬ workerKey d → ¬ federatedKey d →
   (∀ clusters vs, scanKey clusters d vs = clusters) ∧
   (∀ samples, retrieveNetworkData samples !! d = None)).
Proof.
  split_and!.
  - apply classifyKey_toScan_spec.
  - apply classifyKey_Type_worker.
  - apply classifyKey_Type_federated.
  - rewrite <- Contains_spec, classifyKey_NetworkID.
    intros Hc. rewrite Hc. by apply Split_underscore_hd.
  - rewrite <- Contains_spec, classifyKey_NetworkID.
    intros Hc. by apply not_true_is_false in Hc as ->.
  - intros clusters vs. rewrite scanKey_spec.
    destruct (_ && _); [by right | by left].
  - rewrite <- isWorkerCluster_spec, <- isFederatedCluster_spec.
    intros Hw%not_true_is_false Hf%not_true_is_false. split.
    + intros clusters vs. by rewrite scanKey_spec, classifyKey_toScan, Hw, Hf.
    + intros samples. apply retrieveNetworkData_lookup_none.
      intros data vs _ _. by rewrite classifyKey_toScan, Hw, Hf.
Qed.

(** C6.  For a classified key the values that do not decode are skipped,
    and the cluster's Workers are exactly the identifiers of the values
    that decode as online, in the order of the values; the cluster is
    recorded when there is at least one and nothing is produced
    otherwise.  So the values online(A), offline(B) under a worker key
    yield one ClusterData, with Workers = [A] and Type worker, and a key
    whose values are all offline or undecodable yields none, in one round
    and in a whole scan. *)
Theorem scanKey_online_workers (d : string) (clusters : gmap string ClusterData)
  (vs : list Data) :
  workerKey d ∨ federatedKey d →
  (∀ v st, Unmarshal v = None → scanValue st v = st) ∧
  scanKey clusters d vs =
    (if nonempty (onlineIDs vs)
     then <[d := {| Workers := onlineIDs vs;
                    Type' := Type' (classifyKey d).2;
                    NetworkID := NetworkID (classifyKey d).2 |}]> clusters
     else clusters) ∧
  (∀ a b A B,
     vs = [a; b] →
     Unmarshal a = Some {| ID := A; IsOnline := true |} →
     Unmarshal b = Some {| ID := B; IsOnline := false |} →
     workerKey d →
     ∀ received,
       flushes (retrieveNetworkData [{[d := vs]}]) received ↔
       received = [{| Workers := [A];
                      Type' := "worker";
                      NetworkID := NetworkID (classifyKey d).2 |}]) ∧
  (no_online vs → scanKey clusters d vs = clusters) ∧
  (∀ samples,
     (∀ data vs', data ∈ samples → data !! d = Some vs' → no_online vs') →
     retrieveNetworkData samples !! d = None).
Proof.
  intros Hkey.
  assert ((classifyKey d).1 = true) as Hscan
    by (by apply classifyKey_toScan_spec).
  split_and!.
  - intros v st Hv. unfold scanValue. by rewrite Hv.
  - rewrite scanKey_spec, Hscan. cbn.
    destruct (nonempty (onlineIDs vs)); [| done]. do 2 f_equal.
  - intros a b A B -> Ha Hb Hw received.
    rewrite retrieveNetworkData_one_key, scanKey_spec, Hscan.
    rewrite !onlineIDs_cons, Ha, Hb. cbn.
    apply classifyKey_Type_worker in Hw.
    unfold flushes. rewrite insert_empty, map_to_list_singleton. cbn.
    unfold with_Workers. rewrite Hw. split.
    + intros Hp. by apply Permutation_singleton_r.
    + by intros ->.
  - intros Hno%onlineIDs_nil. by rewrite scanKey_spec, Hno, andb_false_r.
  - intros samples Hall. apply retrieveNetworkData_lookup_none.
    intros data vs' Hin Hd.
    apply Hall, onlineIDs_nil in Hd as ->; [| done].
    apply andb_false_r.
Qed.

(** Whatever the two markers are, some key satisfies both rules, and the
    scanner types it as worker. *)
Lemma both_rules_typed_worker :
  federatedKey ("_" +:+ WorkerID +:+ FederatedID) ∧
  workerKey ("_" +:+ WorkerID +:+ FederatedID) ∧
  Type' (classifyKey ("_" +:+ WorkerID +:+ FederatedID)).2 = "worker".
Proof.
  assert (workerKey ("_" +:+ WorkerID +:+ FederatedID)) as Hw.
  { right. split; [by exists "", (WorkerID +:+ FederatedID) |].
    by exists "_", FederatedID. }
  split_and!; [| exact Hw | by apply classifyKey_Type_worker].
  right. split; [by exists "", (WorkerID +:+ FederatedID) |].
  exists ("_" +:+ WorkerID), "". by rewrite append_nil_r, append_assoc.
Qed.

End ScannerProperties.

(** ** The failure tracker *)

Lemma elem_of_range {V : Type} (m : GoMap.t V) (k : string) (v : V) :
  (k, v) ∈ GoMap.range m ↔ GoMap.entry m k = Some v.
Proof.
  destruct m as [g|]; cbn.
  - apply elem_of_map_to_list.
  - split; [intros Hin; by apply elem_of_nil in Hin | done].
Qed.

Lemma entry_delete {V : Type} (m : GoMap.t V) (k k' : string) :
  GoMap.entry (GoMap.delete m k) k' =
    if decide (k = k') then None else GoMap.entry m k'.
Proof.
  destruct m as [g|]; cbn; [| by case_decide].
  case_decide as Hk; [subst; apply lookup_delete_eq | by apply lookup_delete_ne].
Qed.

Lemma get_entry (m : GoMap.t Z) (k : string) :
  GoMap.get 0 m k = default 0 (GoMap.entry m k).
Proof. by destruct m. Qed.

Lemma elem_of_TokenList_Delete (db : Database) (k t : string) :
  t ∈ TokenList (Delete k db) ↔ t ∈ TokenList db ∧ t ≠ k.
Proof. unfold TokenList, Delete. cbn. rewrite list_elem_of_filter. tauto. Qed.

Section Sweep.

Implicit Types (s : DiscoveryServer) (kv : string * Z) (k : string).

Lemma sweepEntry_errorThreshold s kv :
  errorThreshold (sweepEntry s kv) = errorThreshold s.
Proof. unfold sweepEntry. by case (errorThreshold s <? kv.2). Qed.

Lemma sweepEntry_networkState s kv :
  networkState (sweepEntry s kv) = networkState s.
Proof. unfold sweepEntry. by case (errorThreshold s <? kv.2). Qed.

Lemma sweepEntry_entry s kv k :
  GoMap.entry (failures (sweepEntry s kv)) k =
    if decide (kv.1 = k ∧ errorThreshold s < kv.2) then None
    else GoMap.entry (failures s) k.
Proof.
  unfold sweepEntry. destruct (Z.ltb_spec (errorThreshold s) kv.2) as [Hlt|Hge].
  - cbn [failures with_failures]. rewrite entry_delete.
    repeat case_decide; try done; tauto.
  - case_decide as Hd; [lia | done].
Qed.

Lemma sweepEntry_tokens s kv k :
  k ∈ TokenList (database (sweepEntry s kv)) ↔
  k ∈ TokenList (database s) ∧ ¬ (kv.1 = k ∧ errorThreshold s < kv.2).
Proof.
  unfold sweepEntry. destruct (Z.ltb_spec (errorThreshold s) kv.2) as [Hlt|Hge].
  - cbn [database with_failures with_database].
    rewrite elem_of_TokenList_Delete.
    split; intros [Hin Hn]; (split; [done |]).
    + intros [Heq _]. by apply Hn.
    + intros Heq. apply Hn. by split.
  - split; [intros Hin; split; [done | lia] | tauto].
Qed.

Lemma sweepOver_cons s kv entries :
  sweepOver (kv :: entries) s = sweepOver entries (sweepEntry s kv).
Proof. reflexivity. Qed.

Lemma sweepOver_errorThreshold entries :
  ∀ s, errorThreshold (sweepOver entries s) = errorThreshold s.
Proof.
  induction entries as [|kv entries IH]; intros s; [done |].
  by rewrite sweepOver_cons, IH, sweepEntry_errorThreshold.
Qed.

Lemma sweepOver_networkState entries :
  ∀ s, networkState (sweepOver entries s) = networkState s.
Proof.
  induction entries as [|kv entries IH]; intros s; [done |].
  by rewrite sweepOver_cons, IH, sweepEntry_networkState.
Qed.

Lemma evicted_cons threshold kv entries k :
  evicted threshold (kv :: entries) k ↔
  (kv.1 = k ∧ threshold < kv.2) ∨ evicted threshold entries k.
Proof. apply Exists_cons. Qed.

(** What the sweep leaves of the failure map, whatever the order of the
    visit. *)
Lemma sweepOver_entry entries k :
  ∀ s,
    GoMap.entry (failures (sweepOver entries s)) k =
      if decide (evicted (errorThreshold s) entries k) then None
      else GoMap.entry (failures s) k.
Proof.
  induction entries as [|kv entries IH]; intros s.
  - case_decide as Hev; [by apply Exists_nil in Hev | done].
  - rewrite sweepOver_cons, IH, sweepEntry_errorThreshold, sweepEntry_entry.
    pose proof (evicted_cons (errorThreshold s) kv entries k) as Hc.
    repeat case_decide; tauto.
Qed.

(** What the sweep leaves of the Token Store. *)
Lemma sweepOver_tokens entries k :
  ∀ s,
    k ∈ TokenList (database (sweepOver entries s)) ↔
    k ∈ TokenList (database s) ∧ ¬ evicted (errorThreshold s) entries k.
Proof.
  induction entries as [|kv entries IH]; intros s.
  - unfold evicted. rewrite Exists_nil. cbn. tauto.
  - rewrite sweepOver_cons, IH, sweepEntry_errorThreshold, sweepEntry_tokens.
    rewrite evicted_cons. tauto.
Qed.

Lemma evicted_range s k :
  evicted (errorThreshold s) (GoMap.range (failures s)) k ↔
  ∃ v, GoMap.entry (failures s) k = Some v ∧ errorThreshold s < v.
Proof.
  unfold evicted. rewrite Exists_exists. split.
  - intros ([k' v] & Hin & <- & Hlt). exists v. by rewrite <- elem_of_range.
  - intros (v & Hin & Hlt). exists (k, v). by rewrite elem_of_range.
Qed.

(** The order in which Go visits the entries does not matter. *)
Lemma sweepOver_any_order s entries k :
  entries ≡ₚ GoMap.range (failures s) →
  GoMap.entry (failures (sweepOver entries s)) k =
    GoMap.entry (failures (deleteFailedConnections s)) k ∧
  (k ∈ TokenList (database (sweepOver entries s)) ↔
   k ∈ TokenList (database (deleteFailedConnections s))).
Proof.
  intros Hp. unfold deleteFailedConnections.
  assert (evicted (errorThreshold s) entries k ↔
          evicted (errorThreshold s) (GoMap.range (failures s)) k) as Hev.
  { unfold evicted. rewrite !Exists_exists. by setoid_rewrite Hp. }
  rewrite !sweepOver_entry, !sweepOver_tokens. split; [| tauto].
  repeat case_decide; tauto.
Qed.

(** C1.  After the eviction sweep, every token whose failure count
    exceeded the threshold is gone from the Token Store and from the
    failure map; a token whose count equals the threshold keeps its
    counter and its place in the store.  Hence a token whose count
    exceeds the threshold after a sweep is absent from both (there is no
    such token). *)
Theorem deleteFailedConnections_evicts s :
  (∀ k v,
     GoMap.entry (failures s) k = Some v → errorThreshold s < v →
     (k ∉ TokenList (database (deleteFailedConnections s))) ∧
     GoMap.entry (failures (deleteFailedConnections s)) k = None) ∧
  (∀ k v,
     GoMap.entry (failures s) k = Some v → v = errorThreshold s →
     GoMap.entry (failures (deleteFailedConnections s)) k = Some v ∧
     (k ∈ TokenList (database s) →
      k ∈ TokenList (database (deleteFailedConnections s)))) ∧
  (∀ k v,
     GoMap.entry (failures (deleteFailedConnections s)) k = Some v →
     errorThreshold (deleteFailedConnections s) < v →
     (k ∉ TokenList (database (deleteFailedConnections s))) ∧
     GoMap.entry (failures (deleteFailedConnections s)) k = None).
Proof.
  unfold deleteFailedConnections. split_and!.
  - intros k v Hk Hlt.
    assert (evicted (errorThreshold s) (GoMap.range (failures s)) k) as Hev
      by (apply evicted_range; eauto).
    rewrite sweepOver_entry, sweepOver_tokens.
    case_decide; [tauto | done].
  - intros k v Hk ->.
    assert (¬ evicted (errorThreshold s) (GoMap.range (failures s)) k) as Hev.
    { intros (v' & Hk' & Hlt)%evicted_range. rewrite Hk in Hk'.
      injection Hk' as <-. lia. }
    rewrite sweepOver_entry, sweepOver_tokens.
    case_decide; [done | tauto].
  - intros k v. rewrite sweepOver_entry, sweepOver_errorThreshold.
    case_decide as Hev; [done |]. intros Hk Hlt.
    exfalso. apply Hev, evicted_range. eauto.
Qed.

(** With a threshold that is not negative the same holds of the implicit
    count of a token that has no entry. *)
Lemma deleteFailedConnections_count_bound s k :
  0 ≤ errorThreshold s →
  GoMap.get 0 (failures (deleteFailedConnections s)) k ≤ errorThreshold s.
Proof.
  intros Hthr. rewrite get_entry. unfold deleteFailedConnections.
  rewrite sweepOver_entry. case_decide as Hev; [done |].
  destruct (GoMap.entry (failures s) k) as [v|] eqn:Hk; cbn; [| done].
  destruct (decide (errorThreshold s < v)) as [Hlt|]; [| lia].
  exfalso. apply Hev, evicted_range. eauto.
Qed.

(** C4 (as amended).  When the sweep evicts a token, it removes the
    token's failure counter and deletes the token from the Token Store;
    it leaves the network state as it was. *)
Theorem deleteFailedConnections_eviction_action s k v :
  GoMap.entry (failures s) k = Some v →
  errorThreshold s < v →
  GoMap.entry (failures (deleteFailedConnections s)) k = None ∧
  (k ∉ TokenList (database (deleteFailedConnections s))) ∧
  networkState (deleteFailedConnections s) = networkState s.
Proof.
  intros Hk Hlt. unfold deleteFailedConnections.
  assert (evicted (errorThreshold s) (GoMap.range (failures s)) k) as Hev
    by (apply evicted_range; eauto).
  rewrite sweepOver_entry, sweepOver_tokens, sweepOver_networkState.
  case_decide; [tauto | done].
Qed.

End Sweep.

(** ** One discovery pass *)

Section Pass.

Implicit Types (s : DiscoveryServer) (token : string) (p : Probe).

Lemma Scans_inj (received received' : list ClusterData) :
  Scans received = Scans received' → received = received'.
Proof. by intros [= ->]. Qed.

Lemma collect_from (received : list ClusterData) :
  ∀ ledgerK hasWorkers,
    foldl (λ (st : list ClusterData * bool) key,
             ((st.1 ++ [key])%list,
              if (0 <? length (Workers key))%nat then true else st.2))
          (ledgerK, hasWorkers) received =
      ((ledgerK ++ received)%list,
       hasWorkers || existsb (λ key, nonempty (Workers key)) received).
Proof.
  induction received as [|key received IH]; intros ledgerK hasWorkers.
  - cbn. by rewrite app_nil_r, orb_false_r.
  - cbn [foldl]. rewrite IH. cbn. rewrite <- app_assoc. f_equal.
    destruct (Workers key); cbn; [done | by rewrite orb_true_r].
Qed.

(** The pass keeps all it receives and sets [hasWorkers] when one of the
    clusters has a worker. *)
Lemma collect_spec (received : list ClusterData) :
  collect received =
    (received, existsb (λ key, nonempty (Workers key)) received).
Proof. unfold collect. by rewrite collect_from. Qed.

Lemma existsb_nonempty (received : list ClusterData) :
  existsb (λ key, nonempty (Workers key)) received = true ↔
  ∃ cd, cd ∈ received ∧ Workers cd ≠ [].
Proof.
  rewrite existsb_exists. split; intros (cd & Hin & Hw); exists cd.
  - apply list_elem_of_In in Hin. split; [done |]. by destruct (Workers cd).
  - apply list_elem_of_In in Hin. split; [done |]. by destruct (Workers cd).
Qed.

Lemma probeToken_fails token p s :
  fails p → probeToken token p s = failedToken token s.
Proof.
  destruct p as [| | |received]; try done.
  intros Hf. unfold probeToken. rewrite collect_spec.
  destruct (existsb _ received) eqn:Hex; [| done].
  apply existsb_nonempty in Hex as (cd & Hin & Hw). by apply Hf in Hin.
Qed.

Lemma wrap_int_small (z : Z) : minInt ≤ z ≤ maxInt → wrap_int z = z.
Proof.
  unfold wrap_int, minInt, maxInt. intros Hz. rewrite Z.mod_small; lia.
Qed.

(** On a server whose failure map is allocated, a failure adds one to the
    token's counter (a first failure makes it 1) and touches nothing
    else. *)
Lemma failedToken_allocated token s g :
  failures s = Some g →
  minInt ≤ GoMap.get 0 (failures s) token < maxInt →
  ∃ s',
    failedToken token s = Ok s' ∧
    GoMap.entry (failures s') token = Some (GoMap.get 0 (failures s) token + 1) ∧
    (GoMap.entry (failures s) token = None →
     GoMap.entry (failures s') token = Some 1) ∧
    (∀ t, t ≠ token →
          GoMap.entry (failures s') t = GoMap.entry (failures s) t) ∧
    networkState s' = networkState s ∧
    database s' = database s ∧
    errorThreshold s' = errorThreshold s.
Proof.
  intros Hg Hlt. unfold failedToken. rewrite Hg in *. cbn in Hlt |- *.
  eexists. split; [done |]. cbn.
  rewrite wrap_int_small by lia.
  split_and!; try done.
  - by rewrite lookup_insert_eq.
  - intros Hnone. by rewrite Hnone, lookup_insert_eq.
  - intros t Hne. by rewrite lookup_insert_ne.
Qed.

(** The counter of a 64-bit [int] wraps at its largest value. *)
Lemma failedToken_wraps token s g :
  failures s = Some g →
  g !! token = Some maxInt →
  ∃ s', failedToken token s = Ok s' ∧
        GoMap.entry (failures s') token = Some minInt.
Proof.
  intros Hg Hmax. unfold failedToken. rewrite Hg. cbn. rewrite Hmax. cbn.
  eexists. split; [done |]. cbn. by rewrite lookup_insert_eq.
Qed.

(** On a server whose failure map is nil, recording a failure panics. *)
Lemma failedToken_nil token s :
  failures s = None →
  failedToken token s = Panic "assignment to entry in nil map".
Proof. intros Hnil. unfold failedToken. by rewrite Hnil. Qed.

(** The state after a probe that found workers. *)
Lemma probeToken_success token received s :
  (∃ cd, cd ∈ received ∧ Workers cd ≠ []) →
  probeToken token (Scans received) s =
    Ok (with_failures (GoMap.delete (failures s) token)
          (with_networkState
             {| Networks :=
                  <[token := {| Clusters := received |}]>
                    (Networks (networkState s)) |} s)).
Proof.
  intros Hex%existsb_nonempty. unfold probeToken.
  by rewrite collect_spec, Hex.
Qed.

(** C2.  When the pass receives at least one cluster with a worker for a
    token, it replaces the token's entry of the network state by the very
    sequence received, whatever the entry was, and clears the token's
    failure counter, whatever the count was; the other tokens keep their
    entries and counters. *)
Theorem probeToken_replaces_network token received s :
  (∃ cd, cd ∈ received ∧ Workers cd ≠ []) →
  ∃ s',
    probeToken token (Scans received) s = Ok s' ∧
    Networks (networkState s') !! token = Some {| Clusters := received |} ∧
    (∀ t, t ≠ token →
          Networks (networkState s') !! t = Networks (networkState s) !! t) ∧
    GoMap.entry (failures s') token = None ∧
    GoMap.get 0 (failures s') token = 0 ∧
    (∀ t, t ≠ token →
          GoMap.entry (failures s') t = GoMap.entry (failures s) t) ∧
    database s' = database s.
Proof.
  intros Hex. rewrite probeToken_success by done. eexists. split; [done |].
  cbn [networkState failures database with_failures with_networkState Networks].
  rewrite get_entry, !entry_delete. split_and!; try done.
  - by rewrite lookup_insert_eq.
  - intros t Hne. by rewrite lookup_insert_ne.
  - by case_decide.
  - by case_decide.
  - intros t Hne. rewrite entry_delete. by case_decide.
Qed.

(** C3, on the server that [NewDiscoveryServer] builds.  The failure map
    is nil there, so the first recorded failure of any kind (a failing
    connection stage, a scan without workers) panics instead of counting:
    the pass does not complete and [Start] ends with it. *)
Theorem recorded_failure_panics db dur failureThreshold token :
  probeToken token NewNodeFails (NewDiscoveryServer db dur failureThreshold)
    = Panic "assignment to entry in nil map" ∧
  probeToken token StartFails (NewDiscoveryServer db dur failureThreshold)
    = Panic "assignment to entry in nil map" ∧
  probeToken token LedgerFails (NewDiscoveryServer db dur failureThreshold)
    = Panic "assignment to entry in nil map" ∧
  probeToken token (Scans []) (NewDiscoveryServer db dur failureThreshold)
    = Panic "assignment to entry in nil map" ∧
  runBackground (λ _, NewNodeFails)
    (NewDiscoveryServer {| tokens := ["net2"] |} 0 3)
    = Panic "assignment to entry in nil map" ∧
  Start (λ _, false) (λ _ _, NewNodeFails) 2 0
    (NewDiscoveryServer {| tokens := ["net2"] |} 0 3)
    = Crashed "assignment to entry in nil map".
Proof. by split_and!. Qed.

(** C10, on the code.  The server that [NewDiscoveryServer] returns has a
    nil failure map, and the first [failedToken] on it panics. *)
Theorem NewDiscoveryServer_failures_nil db dur failureThreshold :
  failures (NewDiscoveryServer db dur failureThreshold) = None ∧
  ∀ token,
    failedToken token (NewDiscoveryServer db dur failureThreshold)
      = Panic "assignment to entry in nil map".
Proof. done. Qed.

(** On a server whose failure map is allocated, each kind of failure is
    recorded: the counter goes up by one and the network state stays. *)
Lemma probeToken_records_failure token p s g :
  fails p →
  failures s = Some g →
  minInt ≤ GoMap.get 0 (failures s) token < maxInt →
  ∃ s',
    probeToken token p s = Ok s' ∧
    GoMap.entry (failures s') token = Some (GoMap.get 0 (failures s) token + 1) ∧
    networkState s' = networkState s.
Proof.
  intros Hf Hg Hrange. rewrite probeToken_fails by done.
  destruct (failedToken_allocated token s g Hg Hrange)
    as (s' & Hstep & Hcount & _ & _ & Hnet & _).
  by exists s'.
Qed.

(** Probing a token leaves the snapshot and the counter of the others. *)
Lemma probeToken_other token t p s s' :
  t ≠ token →
  probeToken t p s = Ok s' →
  Networks (networkState s') !! token = Networks (networkState s) !! token ∧
  GoMap.entry (failures s') token = GoMap.entry (failures s) token.
Proof.
  intros Hne Hstep.
  assert (∀ s1, failedToken t s = Ok s1 →
            Networks (networkState s1) !! token
              = Networks (networkState s) !! token ∧
            GoMap.entry (failures s1) token = GoMap.entry (failures s) token)
    as Hfailed.
  { intros s1. unfold failedToken. destruct (failures s) as [g|]; cbn; [| done].
    intros [= <-]. cbn. by rewrite lookup_insert_ne. }
  destruct p as [| | |received]; cbn in Hstep; try by apply Hfailed.
  rewrite collect_spec in Hstep.
  destruct (existsb _ received); [| by apply Hfailed].
  injection Hstep as <-.
  cbn [networkState failures with_failures with_networkState Networks].
  rewrite entry_delete, lookup_insert_ne by done. by case_decide.
Qed.

Lemma forEach_other (net : string → Probe) token (l : list string) :
  token ∉ l →
  ∀ s s',
    forEach (λ s t, probeToken t (net t) s) s l = Ok s' →
    Networks (networkState s') !! token = Networks (networkState s) !! token ∧
    GoMap.entry (failures s') token = GoMap.entry (failures s) token.
Proof.
  induction l as [|t l IH]; intros Hnotin s s' Hrun.
  - by injection Hrun as <-.
  - apply not_elem_of_cons in Hnotin as [Hne Hnotin]. cbn in Hrun.
    destruct (probeToken t (net t) s) as [s1|msg] eqn:Hstep; [| done].
    cbn in Hrun. destruct (IH Hnotin s1 s' Hrun) as [-> ->].
    by apply (probeToken_other token t (net t)).
Qed.

Lemma forEach_app {S A : Type} (body : S → A → result S) (l1 l2 : list A) :
  ∀ st : S,
    forEach body st (l1 ++ l2) = st1 ← forEach body st l1; forEach body st1 l2.
Proof.
  induction l1 as [|a l1 IH]; intros st; [done |].
  cbn. destruct (body st a) as [st1|msg]; cbn; [apply IH | done].
Qed.

(** The same at the end of a completed pass: a token of the store, probed
    once with success, has the received sequence as its snapshot and no
    failure counter. *)
Lemma runBackground_success (net : string → Probe) token received s s' :
  token ∈ TokenList (database s) →
  NoDup (TokenList (database s)) →
  net token = Scans received →
  (∃ cd, cd ∈ received ∧ Workers cd ≠ []) →
  runBackground net s = Ok s' →
  Networks (networkState s') !! token = Some {| Clusters := received |} ∧
  GoMap.entry (failures s') token = None.
Proof.
  intros Hin Hnodup Hnet Hex. unfold runBackground.
  destruct (length _ =? 0)%nat eqn:Hlen.
  { apply Nat.eqb_eq, nil_length_inv in Hlen. rewrite Hlen in Hin.
    by apply elem_of_nil in Hin. }
  apply list_elem_of_split in Hin as (l1 & l2 & Hl). rewrite Hl in *.
  apply NoDup_app in Hnodup as (_ & _ & [Hnotin _]%NoDup_cons).
  rewrite forEach_app.
  destruct (forEach _ s l1) as [s1|msg]; cbn; [| done]. rewrite Hnet.
  rewrite probeToken_success by done.
  cbn. destruct (forEach _ _ l2) as [s3|msg] eqn:Hrest; cbn; [| done].
  intros [= <-]. unfold deleteFailedConnections.
  rewrite sweepOver_networkState, sweepOver_entry.
  destruct (forEach_other net token l2 Hnotin _ s3 Hrest) as [-> ->].
  cbn [networkState failures with_failures with_networkState Networks].
  rewrite lookup_insert_eq, entry_delete. split; [done |].
  case_decide; [done | by case_decide].
Qed.

(** C8.  With no token in the store the pass returns the server as it is:
    network state and failure map are untouched, and no sweep runs. *)
Theorem runBackground_no_tokens (net : string → Probe) s :
  TokenList (database s) = [] → runBackground net s = Ok s.
Proof. intros Hnil. unfold runBackground. by rewrite Hnil. Qed.

Lemma failedToken_networkState token s s' :
  failedToken token s = Ok s' → networkState s' = networkState s.
Proof.
  unfold failedToken. destruct (failures s) as [g|]; cbn; [| done].
  by intros [= <-].
Qed.

Lemma probeToken_workers_nonempty token p s s' :
  (∀ received, p = Scans received → Forall (λ cd, Workers cd ≠ []) received) →
  workers_nonempty s →
  probeToken token p s = Ok s' →
  workers_nonempty s'.
Proof.
  intros Hp Hinv Hstep. unfold workers_nonempty in *.
  destruct p as [| | |received]; cbn in Hstep;
    try (apply failedToken_networkState in Hstep as ->; exact Hinv).
  rewrite collect_spec in Hstep.
  destruct (existsb _ received);
    [| apply failedToken_networkState in Hstep as ->; exact Hinv].
  injection Hstep as <-. cbn. intros t n cd Hn Hcd.
  destruct (decide (token = t)) as [->|Hne].
  - rewrite lookup_insert_eq in Hn. injection Hn as <-. cbn in Hcd.
    specialize (Hp received eq_refl). rewrite Forall_forall in Hp. eauto.
  - rewrite lookup_insert_ne in Hn by done. eauto.
Qed.

Lemma forEach_workers_nonempty (net : string → Probe) (l : list string) :
  (∀ token received,
     net token = Scans received → Forall (λ cd, Workers cd ≠ []) received) →
  ∀ s s',
    workers_nonempty s →
    forEach (λ s token, probeToken token (net token) s) s l = Ok s' →
    workers_nonempty s'.
Proof.
  intros Hnet. induction l as [|token l IH]; intros s s' Hinv Hrun.
  - by injection Hrun as <-.
  - cbn in Hrun.
    destruct (probeToken token (net token) s) as [s1|msg] eqn:Hstep;
      [| done].
    cbn in Hrun. eapply IH; [| exact Hrun].
    eapply probeToken_workers_nonempty; [| exact Hinv | exact Hstep].
    intros received Hr. by apply (Hnet token).
Qed.

Lemma runBackground_workers_nonempty (net : string → Probe) s s' :
  (∀ token received,
     net token = Scans received → Forall (λ cd, Workers cd ≠ []) received) →
  workers_nonempty s →
  runBackground net s = Ok s' →
  workers_nonempty s'.
Proof.
  intros Hnet Hinv. unfold runBackground.
  destruct (length _ =? 0)%nat; [by intros [= <-] |].
  destruct (forEach _ s _) as [s1|msg] eqn:Hrun; cbn; [| done].
  intros [= <-]. unfold workers_nonempty, deleteFailedConnections.
  rewrite sweepOver_networkState.
  by apply (forEach_workers_nonempty net (TokenList (database s)) Hnet s s1).
Qed.

(** C7.  Every ClusterData the scanner sends has a worker, and so has
    every ClusterData held in the network state of a server that was built
    by [NewDiscoveryServer] and driven by passes fed by the scanner. *)
Theorem reachable_workers_nonempty `{P2P} :
  (∀ samples received,
     flushes (retrieveNetworkData samples) received →
     Forall (λ cd, Workers cd ≠ []) received) ∧
  (∀ s, reachable s → workers_nonempty s).
Proof.
  split; [apply flushes_nonempty |].
  induction 1 as [db dur thr | s s' net Hreach IH Hsound Hrun | s db Hreach IH].
  - intros token n cd Hn. unfold NewDiscoveryServer in Hn.
    cbn [networkState Networks] in Hn. by rewrite lookup_empty in Hn.
  - eapply runBackground_workers_nonempty; [| exact IH | exact Hrun].
    intros token received Hr.
    destruct (Hsound token received Hr) as [samples Hfl].
    by apply (flushes_nonempty samples).
  - exact IH.
Qed.

End Pass.

(** ** The outer loop *)

Section Loop.

Variables (ctxDone : nat → bool) (net : nat → string → Probe).

(** While the context is not cancelled, [Start] does nothing but run
    passes: it is still running after them, unless one of them panics. *)
Lemma Start_not_cancelled (fuel : nat) :
  ∀ i s,
    (∀ j, (j < fuel)%nat → ctxDone (i + j) = false) →
    Start ctxDone net fuel i s =
      match passes net i fuel s with
      | Ok s' => StillRunning s'
      | Panic msg => Crashed msg
      end.
Proof.
  induction fuel as [|fuel IH]; intros i s Hnot; [done |].
  cbn. pose proof (Hnot 0%nat ltac:(lia)) as H0.
  rewrite Nat.add_0_r in H0. rewrite H0.
  destruct (runBackground (net i) s) as [s1|msg]; cbn; [| done].
  apply IH. intros j Hj. specialize (Hnot (S j) ltac:(lia)).
  by rewrite Nat.add_succ_r in Hnot.
Qed.

(** When [Start] returns: exactly when it finds the context cancelled at
    the top of an iteration, all the passes before having completed; the
    error is then the cancellation error.  This speaks of the return
    only: a pass that panics ends the run as [Crashed], whatever the
    context does later. *)
Theorem Start_returns_iff (fuel : nat) :
  ∀ i s err s',
    Start ctxDone net fuel i s = Returned err s' ↔
    err = "context cancelled" ∧
    ∃ n, (n < fuel)%nat ∧
         ctxDone (i + n) = true ∧
         (∀ j, (j < n)%nat → ctxDone (i + j) = false) ∧
         passes net i n s = Ok s'.
Proof.
  induction fuel as [|fuel IH]; intros i s err s'.
  - split; [done | intros (_ & n & Hn & _); lia].
  - cbn [Start]. destruct (ctxDone i) eqn:Hdone.
    + split.
      * intros [= <- <-]. split; [done |]. exists 0%nat.
        rewrite Nat.add_0_r. split_and!; [lia | done | intros; lia | done].
      * intros (-> & n & Hn & Hat & Hbefore & Hpass).
        destruct n as [|n].
        -- by injection Hpass as <-.
        -- specialize (Hbefore 0%nat ltac:(lia)).
           rewrite Nat.add_0_r in Hbefore. congruence.
    + destruct (runBackground (net i) s) as [s1|msg] eqn:Hrun.
      * rewrite IH. split.
        -- intros (-> & n & Hn & Hat & Hbefore & Hpass). split; [done |].
           exists (S n). rewrite Nat.add_succ_r. split_and!; [lia | done | |].
           ++ intros [|j] Hj; [by rewrite Nat.add_0_r |].
              rewrite Nat.add_succ_r. apply Hbefore. lia.
           ++ cbn. by rewrite Hrun.
        -- intros (-> & n & Hn & Hat & Hbefore & Hpass). split; [done |].
           destruct n as [|n]; [rewrite Nat.add_0_r in Hat; congruence |].
           exists n. rewrite Nat.add_succ_r in Hat.
           cbn in Hpass. rewrite Hrun in Hpass.
           split_and!; [lia | done | | done].
           intros j Hj. specialize (Hbefore (S j) ltac:(lia)).
           by rewrite Nat.add_succ_r in Hbefore.
      * split; [done |].
        intros (-> & n & Hn & Hat & Hbefore & Hpass).
        destruct n as [|n]; [rewrite Nat.add_0_r in Hat; congruence |].
        cbn in Hpass. by rewrite Hrun in Hpass.
Qed.

End Loop.

(** ** More on the eviction sweep *)

Section SweepMore.

Implicit Types (s : DiscoveryServer) (kv : string * Z) (k : string).

Lemma sweepEntry_connectionTime s kv :
  connectionTime (sweepEntry s kv) = connectionTime s.
Proof. unfold sweepEntry. by case (errorThreshold s <? kv.2). Qed.

Lemma sweepOver_connectionTime entries :
  ∀ s, connectionTime (sweepOver entries s) = connectionTime s.
Proof.
  induction entries as [|kv entries IH]; intros s; [done |].
  by rewrite sweepOver_cons, IH, sweepEntry_connectionTime.
Qed.

Lemma sweepOver_allocated entries :
  ∀ s, is_Some (failures s) → is_Some (failures (sweepOver entries s)).
Proof.
  induction entries as [|kv entries IH]; intros s Hs; [done |].
  rewrite sweepOver_cons. apply IH. unfold sweepEntry.
  case (errorThreshold s <? kv.2); [| done].
  destruct Hs as [g Hg]. cbn. rewrite Hg. by eexists.
Qed.

Lemma sweepOver_nil_failures entries :
  ∀ s, failures s = None → failures (sweepOver entries s) = None.
Proof.
  induction entries as [|kv entries IH]; intros s Hs; [done |].
  rewrite sweepOver_cons. apply IH. unfold sweepEntry.
  case (errorThreshold s <? kv.2); [| done]. cbn. by rewrite Hs.
Qed.

(** The store and the failure map after the sweep. *)
Lemma deleteFailedConnections_lookup s k :
  (k ∈ TokenList (database (deleteFailedConnections s)) ↔
   k ∈ TokenList (database s) ∧
   ¬ ∃ v, GoMap.entry (failures s) k = Some v ∧ errorThreshold s < v) ∧
  GoMap.entry (failures (deleteFailedConnections s)) k =
    (v ← GoMap.entry (failures s) k;
     if errorThreshold s <? v then None else Some v) ∧
  networkState (deleteFailedConnections s) = networkState s.
Proof.
  unfold deleteFailedConnections.
  rewrite sweepOver_tokens, sweepOver_entry, sweepOver_networkState.
  split_and!; try done; [by rewrite evicted_range |].
  destruct (GoMap.entry (failures s) k) as [v|] eqn:Hk; cbn.
  - destruct (Z.ltb_spec (errorThreshold s) v) as [Hlt|Hge].
    + rewrite decide_True; [done |].
      apply evicted_range. exists v. by rewrite Hk.
    + rewrite decide_False; [done |].
      intros (v' & Hk' & Hlt)%evicted_range. rewrite Hk in Hk'.
      injection Hk' as <-. lia.
  - by case_decide.
Qed.

(** The sweep removes exactly the tokens whose counter exceeds the
    threshold.  Every other token of the store stays, whether it has a
    counter or not; every other counter keeps its value; the network
    state and the configuration are not touched. *)
Theorem deleteFailedConnections_exact s k :
  (k ∈ TokenList (database (deleteFailedConnections s)) ↔
   k ∈ TokenList (database s) ∧
   ¬ ∃ v, GoMap.entry (failures s) k = Some v ∧ errorThreshold s < v) ∧
  GoMap.entry (failures (deleteFailedConnections s)) k =
    (v ← GoMap.entry (failures s) k;
     if errorThreshold s <? v then None else Some v) ∧
  networkState (deleteFailedConnections s) = networkState s ∧
  errorThreshold (deleteFailedConnections s) = errorThreshold s ∧
  connectionTime (deleteFailedConnections s) = connectionTime s.
Proof.
  destruct (deleteFailedConnections_lookup s k) as (Htok & Hent & Hns).
  split_and!; try done; unfold deleteFailedConnections.
  - apply sweepOver_errorThreshold.
  - apply sweepOver_connectionTime.
Qed.

(** A sweep that meets no counter above the threshold changes nothing. *)
Lemma sweepOver_noop entries s :
  Forall (λ kv, kv.2 ≤ errorThreshold s) entries →
  sweepOver entries s = s.
Proof.
  induction 1 as [|kv entries Hkv Hall IH]; [done |].
  rewrite sweepOver_cons. unfold sweepEntry.
  destruct (Z.ltb_spec (errorThreshold s) kv.2) as [Hlt|Hge]; [lia | done].
Qed.

(** Sweeping twice is sweeping once. *)
Theorem deleteFailedConnections_idempotent s :
  deleteFailedConnections (deleteFailedConnections s) = deleteFailedConnections s.
Proof.
  unfold deleteFailedConnections at 1. apply sweepOver_noop.
  apply Forall_forall. intros [k v] Hin%elem_of_range. cbn.
  unfold deleteFailedConnections in *.
  rewrite sweepOver_errorThreshold. rewrite sweepOver_entry in Hin.
  case_decide as Hev; [done |].
  destruct (decide (errorThreshold s < v)) as [Hlt|]; [| lia].
  exfalso. apply Hev, evicted_range. eauto.
Qed.

End SweepMore.

(** ** More on the ledger scanner *)

Section ScannerMore.

Context `{P2P}.

(** The entry of a key after one round of the sampling loop. *)
Lemma scanStorage_lookup (clusters : gmap string ClusterData) (data : Storage)
  (d : string) :
  scanStorage clusters data !! d =
    match data !! d with
    | Some vs =>
        if (classifyKey d).1 && nonempty (onlineIDs vs)
        then Some {| Workers := onlineIDs vs;
                     Type' := Type' (classifyKey d).2;
                     NetworkID := NetworkID (classifyKey d).2 |}
        else clusters !! d
    | None => clusters !! d
    end.
Proof.
  unfold scanStorage.
  rewrite scanEntries_lookup by apply NoDup_fst_map_to_list.
  rewrite list_to_map_to_list.
  destruct (data !! d) as [vs|]; [| done].
  rewrite scanKey_spec.
  destruct (_ && _); [by rewrite lookup_insert_eq | done].
Qed.

Lemma retrieveNetworkData_snoc (samples : list Storage) (data : Storage) :
  retrieveNetworkData (samples ++ [data]) =
    scanStorage (retrieveNetworkData samples) data.
Proof. unfold retrieveNetworkData. by rewrite foldl_app. Qed.

(** What a further round does to the scan.  A key whose values include an
    online node gets the cluster built from this round alone: the workers
    of earlier rounds are overwritten, not merged.  Any other key keeps
    what the earlier rounds left, also when its nodes have gone offline or
    the key has left the storage. *)
Theorem retrieveNetworkData_last_round (samples : list Storage) (data : Storage)
  (d : string) :
  retrieveNetworkData (samples ++ [data]) !! d =
    match data !! d with
    | Some vs =>
        if (classifyKey d).1 && nonempty (onlineIDs vs)
        then Some {| Workers := onlineIDs vs;
                     Type' := Type' (classifyKey d).2;
                     NetworkID := NetworkID (classifyKey d).2 |}
        else retrieveNetworkData samples !! d
    | None => retrieveNetworkData samples !! d
    end.
Proof. by rewrite retrieveNetworkData_snoc, scanStorage_lookup. Qed.

Lemma retrieveNetworkData_origin (samples : list Storage) (d : string)
  (cd : ClusterData) :
  retrieveNetworkData samples !! d = Some cd →
  ∃ data vs,
    data ∈ samples ∧ data !! d = Some vs ∧
    (workerKey d ∨ federatedKey d) ∧
    onlineIDs vs ≠ [] ∧
    cd = {| Workers := onlineIDs vs;
            Type' := Type' (classifyKey d).2;
            NetworkID := NetworkID (classifyKey d).2 |}.
Proof.
  induction samples as [|data samples IH] using rev_ind.
  - unfold retrieveNetworkData. cbn. by rewrite lookup_empty.
  - rewrite retrieveNetworkData_snoc, scanStorage_lookup. intros Hd.
    assert (retrieveNetworkData samples !! d = Some cd →
            ∃ data' vs,
              data' ∈ (samples ++ [data])%list ∧ data' !! d = Some vs ∧
              (workerKey d ∨ federatedKey d) ∧ onlineIDs vs ≠ [] ∧
              cd = {| Workers := onlineIDs vs;
                      Type' := Type' (classifyKey d).2;
                      NetworkID := NetworkID (classifyKey d).2 |}) as Hold.
    { intros (data' & vs & Hin & Hrest)%IH. exists data', vs.
      split; [| done]. apply elem_of_app. by left. }
    destruct (data !! d) as [vs|] eqn:Hdata; [| by apply Hold].
    destruct ((classifyKey d).1) eqn:Hscan; cbn in Hd; [| by apply Hold].
    destruct (onlineIDs vs) as [|id ids] eqn:Hids; cbn in Hd; [by apply Hold |].
    injection Hd as <-. exists data, vs. rewrite Hids. split_and!; try done.
    + apply elem_of_app. right. by left.
    + by apply classifyKey_toScan_spec.
Qed.

(** Every cluster of the scan was built from the values one of the rounds
    read under its key, and the key is a worker or a federated key. *)
Theorem retrieveNetworkData_provenance (samples : list Storage) (d : string)
  (cd : ClusterData) :
  retrieveNetworkData samples !! d = Some cd →
  ∃ data vs,
    data ∈ samples ∧ data !! d = Some vs ∧
    (workerKey d ∨ federatedKey d) ∧
    onlineIDs vs ≠ [] ∧
    cd = {| Workers := onlineIDs vs;
            Type' := Type' (classifyKey d).2;
            NetworkID := NetworkID (classifyKey d).2 |}.
Proof. apply retrieveNetworkData_origin. Qed.

(** The type and the NetworkID the scanner gives to a cluster. *)
Lemma classifyKey_typed (d : string) :
  (classifyKey d).1 = true →
  (Type' (classifyKey d).2 = "worker" ∨ Type' (classifyKey d).2 = "federated") ∧
  ¬ substring "_" (NetworkID (classifyKey d).2).
Proof.
  rewrite classifyKey_toScan, classifyKey_Type, classifyKey_NetworkID.
  intros Hscan. split.
  - destruct (isWorkerCluster d); [by left |].
    destruct (isFederatedCluster d); [by right | done].
  - destruct (GoStrings.Contains d "_") eqn:Hc.
    + by apply Split_underscore_hd in Hc as [Hpre _].
    + intros ([|a pre] & rest & Heq); discriminate.
Qed.

(** What is received from the scanner is made of clusters of the scan. *)
Lemma flushes_elem_of (clusters : gmap string ClusterData)
  (received : list ClusterData) (cd : ClusterData) :
  flushes clusters received → cd ∈ received → ∃ d, clusters !! d = Some cd.
Proof.
  unfold flushes. intros Hp Hin. rewrite Hp in Hin.
  apply list_elem_of_fmap in Hin as ([k cd'] & -> & Hin).
  exists k. by apply elem_of_map_to_list in Hin.
Qed.

(** Every ClusterData the scanner sends is typed worker or federated and
    has a NetworkID without underscore. *)
Lemma flushes_typed (samples : list Storage) (received : list ClusterData) :
  flushes (retrieveNetworkData samples) received →
  Forall (λ cd, (Type' cd = "worker" ∨ Type' cd = "federated") ∧
                ¬ substring "_" (NetworkID cd)) received.
Proof.
  intros Hfl. apply Forall_forall. intros cd Hin.
  destruct (flushes_elem_of _ _ _ Hfl Hin) as [d Hd].
  apply retrieveNetworkData_origin in Hd
    as (data & vs & _ & _ & Hkey & _ & ->).
  cbn. by apply classifyKey_typed, classifyKey_toScan_spec.
Qed.

End ScannerMore.

(** ** More on the discovery pass *)

Section PassMore.

Implicit Types (s : DiscoveryServer) (token t : string) (p : Probe).

Lemma failedToken_frame token s s' :
  failedToken token s = Ok s' →
  database s' = database s ∧
  errorThreshold s' = errorThreshold s ∧
  connectionTime s' = connectionTime s ∧
  is_Some (failures s').
Proof.
  unfold failedToken. destruct (failures s) as [g|]; cbn; [| done].
  intros [= <-]. cbn. split_and!; first [done | by eexists].
Qed.

Lemma probeToken_frame t p s s' :
  probeToken t p s = Ok s' →
  database s' = database s ∧
  errorThreshold s' = errorThreshold s ∧
  connectionTime s' = connectionTime s ∧
  (failures s = None → failures s' = None) ∧
  (is_Some (failures s) → is_Some (failures s')).
Proof.
  intros Hstep.
  assert (∀ s1, failedToken t s = Ok s1 →
            database s1 = database s ∧
            errorThreshold s1 = errorThreshold s ∧
            connectionTime s1 = connectionTime s ∧
            (failures s = None → failures s1 = None) ∧
            (is_Some (failures s) → is_Some (failures s1))) as Hfailed.
  { intros s1 Hs1.
    destruct (failedToken_frame t s s1 Hs1) as (Hdb & Hthr & Hct & Hal).
    split_and!; try done. intros Hnil.
    unfold failedToken in Hs1. by rewrite Hnil in Hs1. }
  destruct p as [| | |received]; cbn in Hstep; try by apply Hfailed.
  rewrite collect_spec in Hstep.
  destruct (existsb _ received); [| by apply Hfailed].
  injection Hstep as <-. cbn. split_and!; try done.
  - by intros ->.
  - intros [g ->]. by eexists.
Qed.

Lemma forEach_frame (net : string → Probe) (l : list string) :
  ∀ s s',
    forEach (λ s t, probeToken t (net t) s) s l = Ok s' →
    database s' = database s ∧
    errorThreshold s' = errorThreshold s ∧
    connectionTime s' = connectionTime s ∧
    (failures s = None → failures s' = None) ∧
    (is_Some (failures s) → is_Some (failures s')).
Proof.
  induction l as [|t l IH]; intros s s' Hrun.
  - by injection Hrun as <-.
  - cbn in Hrun.
    destruct (probeToken t (net t) s) as [s1|msg] eqn:Hstep; [| done].
    cbn in Hrun.
    destruct (IH _ _ Hrun) as (-> & -> & -> & Hn' & Ha').
    destruct (probeToken_frame _ _ _ _ Hstep) as (-> & -> & -> & Hn & Ha).
    split_and!; auto.
Qed.

(** With an allocated failure map a probe always completes. *)
Lemma probeToken_allocated t p s :
  is_Some (failures s) → ∃ s', probeToken t p s = Ok s'.
Proof.
  intros [g Hg].
  assert (∃ s', failedToken t s = Ok s') as Hfailed.
  { unfold failedToken. rewrite Hg. cbn. by eexists. }
  destruct p as [| | |received]; cbn; try done.
  rewrite collect_spec. destruct (existsb _ received); [by eexists | done].
Qed.

Lemma forEach_allocated (net : string → Probe) (l : list string) :
  ∀ s,
    is_Some (failures s) →
    ∃ s', forEach (λ s t, probeToken t (net t) s) s l = Ok s'.
Proof.
  induction l as [|t l IH]; intros s Hs; [by eexists |].
  destruct (probeToken_allocated t (net t) s Hs) as [s1 Hstep].
  cbn. rewrite Hstep. cbn. apply IH.
  by apply (probeToken_frame _ _ _ _ Hstep).
Qed.

Lemma runBackground_completes (net : string → Probe) s :
  is_Some (failures s) →
  ∃ s', runBackground net s = Ok s' ∧ is_Some (failures s').
Proof.
  intros Hs. unfold runBackground.
  destruct (length _ =? 0)%nat; [by exists s |].
  destruct (forEach_allocated net (TokenList (database s)) s Hs) as [s1 Hrun].
  rewrite Hrun. cbn. eexists. split; [done |].
  apply sweepOver_allocated. by apply (forEach_frame _ _ _ _ Hrun).
Qed.

(** A probe either records a failure or brings a cluster with a worker. *)
Lemma fails_or_succeeds p :
  fails p ∨ ∃ received, p = Scans received ∧ ∃ cd, cd ∈ received ∧ Workers cd ≠ [].
Proof.
  destruct p as [| | |received]; try (by left).
  destruct (existsb (λ key, nonempty (Workers key)) received) eqn:Hex.
  - right. exists received. split; [done |]. by apply existsb_nonempty.
  - left. intros cd Hin. destruct (Workers cd) as [|w ws] eqn:Hw; [done |].
    apply not_true_iff_false in Hex. exfalso. apply Hex, existsb_nonempty.
    exists cd. split; [done |]. by rewrite Hw.
Qed.

Lemma succeeds_not_fails received :
  (∃ cd, cd ∈ received ∧ Workers cd ≠ []) → ¬ fails (Scans received).
Proof. intros (cd & Hin & Hw) Hf. by apply Hw, Hf. Qed.

Lemma forEach_nil_failures (net : string → Probe) (l : list string) :
  ∀ s,
    failures s = None →
    match forEach (λ s t, probeToken t (net t) s) s l with
    | Ok s' =>
        failures s' = None ∧ database s' = database s ∧
        ∀ token, token ∈ l → ¬ fails (net token)
    | Panic msg =>
        msg = "assignment to entry in nil map" ∧
        ∃ token, token ∈ l ∧ fails (net token)
    end.
Proof.
  induction l as [|t l IH]; intros s Hnil.
  - cbn. split_and!; try done. intros token Hin. by apply elem_of_nil in Hin.
  - cbn. destruct (fails_or_succeeds (net t)) as [Hf|(received & Hp & Hex)].
    + rewrite probeToken_fails, failedToken_nil by done. cbn.
      split; [done |]. exists t. split; [by left | done].
    + rewrite Hp, probeToken_success by done. cbn.
      match goal with
      | |- context [forEach _ ?s1 l] =>
          specialize (IH s1); destruct (forEach _ s1 l) as [s'|msg]
      end.
      * destruct IH as (Hn & Hdb & Hall); [cbn; by rewrite Hnil |].
        split_and!; try done. intros token [->|Hin]%elem_of_cons; [| by apply Hall].
        rewrite Hp. by apply succeeds_not_fails.
      * destruct IH as (Hmsg & token & Hin & Hf); [cbn; by rewrite Hnil |].
        split; [done |]. exists token. split; [by right | done].
Qed.

Lemma runBackground_nil_cases (net : string → Probe) s :
  failures s = None →
  match runBackground net s with
  | Ok s' =>
      failures s' = None ∧ database s' = database s ∧
      ∀ token, token ∈ TokenList (database s) → ¬ fails (net token)
  | Panic msg =>
      msg = "assignment to entry in nil map" ∧
      ∃ token, token ∈ TokenList (database s) ∧ fails (net token)
  end.
Proof.
  intros Hnil. unfold runBackground.
  destruct (length _ =? 0)%nat eqn:Hlen.
  { apply Nat.eqb_eq, nil_length_inv in Hlen. rewrite Hlen.
    split_and!; try done. intros token Hin. by apply elem_of_nil in Hin. }
  pose proof (forEach_nil_failures net (TokenList (database s)) s Hnil) as Hrun.
  destruct (forEach _ s _) as [s1|msg]; cbn; [| done].
  destruct Hrun as (Hn & Hdb & Hall).
  unfold deleteFailedConnections. rewrite Hn. by cbn.
Qed.

Lemma probeToken_snapshot_kept t token p s s' :
  t ≠ token ∨ fails p →
  probeToken t p s = Ok s' →
  Networks (networkState s') !! token = Networks (networkState s) !! token.
Proof.
  intros [Hne|Hf] Hstep.
  - by apply (probeToken_other token t p s s').
  - rewrite probeToken_fails in Hstep by done.
    by apply failedToken_networkState in Hstep as ->.
Qed.

Lemma probeToken_snapshot_mono t token p s s' :
  probeToken t p s = Ok s' →
  is_Some (Networks (networkState s) !! token) →
  is_Some (Networks (networkState s') !! token).
Proof.
  intros Hstep Hsome.
  destruct (fails_or_succeeds p) as [Hf|(received & -> & Hex)].
  - by rewrite (probeToken_snapshot_kept t token p s s') by auto.
  - rewrite probeToken_success in Hstep by done. injection Hstep as <-.
    cbn. destruct (decide (t = token)) as [->|Hne].
    + rewrite lookup_insert_eq. by eexists.
    + by rewrite lookup_insert_ne.
Qed.

Lemma forEach_snapshots (net : string → Probe) token (l : list string) :
  ∀ s s',
    forEach (λ s t, probeToken t (net t) s) s l = Ok s' →
    (is_Some (Networks (networkState s) !! token) →
     is_Some (Networks (networkState s') !! token)) ∧
    (token ∉ l ∨ fails (net token) →
     Networks (networkState s') !! token = Networks (networkState s) !! token).
Proof.
  induction l as [|t l IH]; intros s s' Hrun.
  - by injection Hrun as <-.
  - cbn in Hrun.
    destruct (probeToken t (net t) s) as [s1|msg] eqn:Hstep; [| done].
    cbn in Hrun. destruct (IH _ _ Hrun) as [Hmono Hkept]. split.
    + intros Hsome. by apply Hmono, (probeToken_snapshot_mono t token (net t) s).
    + intros Hcase. rewrite Hkept.
      * apply (probeToken_snapshot_kept t token (net t) s s1); [| done].
        destruct Hcase as [Hnotin|Hf]; [| destruct (decide (t = token)) as [->|]; auto].
        apply not_elem_of_cons in Hnotin as [Hne _]. by left.
      * destruct Hcase as [Hnotin|Hf]; [| by right].
        apply not_elem_of_cons in Hnotin as [_ Hnotin]. by left.
Qed.

Lemma runBackground_config (net : string → Probe) s s' :
  runBackground net s = Ok s' →
  errorThreshold s' = errorThreshold s ∧ connectionTime s' = connectionTime s.
Proof.
  unfold runBackground.
  destruct (length _ =? 0)%nat; [by intros [= <-] |].
  destruct (forEach _ s _) as [s1|msg] eqn:Hrun; cbn; [| done].
  intros [= <-]. unfold deleteFailedConnections.
  rewrite sweepOver_errorThreshold, sweepOver_connectionTime.
  by destruct (forEach_frame _ _ _ _ Hrun) as (_ & -> & -> & _).
Qed.

(** What a completed pass never does.  It leaves the threshold and the
    connection time alone, adds no token to the store and removes no entry
    from the network state; the snapshot of a token that is not in the
    store, or that records a failure, is the one it had before. *)
Theorem runBackground_frame (net : string → Probe) s s' :
  runBackground net s = Ok s' →
  errorThreshold s' = errorThreshold s ∧
  connectionTime s' = connectionTime s ∧
  (∀ t, t ∈ TokenList (database s') → t ∈ TokenList (database s)) ∧
  (∀ t, is_Some (Networks (networkState s) !! t) →
        is_Some (Networks (networkState s') !! t)) ∧
  (∀ t, t ∉ TokenList (database s) ∨ fails (net t) →
        Networks (networkState s') !! t = Networks (networkState s) !! t).
Proof.
  unfold runBackground.
  destruct (length _ =? 0)%nat; [by intros [= <-] |].
  destruct (forEach _ s _) as [s1|msg] eqn:Hrun; cbn; [| done].
  intros [= <-]. unfold deleteFailedConnections.
  rewrite sweepOver_errorThreshold, sweepOver_connectionTime,
    sweepOver_networkState.
  destruct (forEach_frame _ _ _ _ Hrun) as (Hdb & -> & -> & _).
  split_and!; try done.
  - intros t [Hin _]%sweepOver_tokens. by rewrite <- Hdb.
  - intros t. by apply (forEach_snapshots net t _ _ _ Hrun).
  - intros t. by apply (forEach_snapshots net t _ _ _ Hrun).
Qed.

End PassMore.

(** ** Passes on a token that fails, and on one that succeeds *)

Section PassOutcome.

Implicit Types (s : DiscoveryServer) (token t : string) (p : Probe).

Lemma sweepOver_NoDup entries :
  ∀ s,
    NoDup (TokenList (database s)) →
    NoDup (TokenList (database (sweepOver entries s))).
Proof.
  induction entries as [|kv entries IH]; intros s Hnd; [done |].
  rewrite sweepOver_cons. apply IH. unfold sweepEntry.
  case (errorThreshold s <? kv.2); [| done].
  cbn. by apply NoDup_filter.
Qed.

Lemma runBackground_NoDup (net : string → Probe) s s' :
  NoDup (TokenList (database s)) →
  runBackground net s = Ok s' →
  NoDup (TokenList (database s')).
Proof.
  intros Hnd. unfold runBackground.
  destruct (length _ =? 0)%nat; [by intros [= <-] |].
  destruct (forEach _ s _) as [s1|msg] eqn:Hrun; cbn; [| done].
  intros [= <-]. apply sweepOver_NoDup.
  destruct (forEach_frame _ _ _ _ Hrun) as (Hdb & _). by rewrite Hdb.
Qed.

(** The state in which the sweep of a pass finds a token that is probed
    once in the pass, in terms of the probe's own step. *)
Lemma runBackground_around (net : string → Probe) token s s' :
  NoDup (TokenList (database s)) →
  token ∈ TokenList (database s) →
  runBackground net s = Ok s' →
  ∃ s1 s2 s3,
    probeToken token (net token) s1 = Ok s2 ∧
    s' = deleteFailedConnections s3 ∧
    database s3 = database s ∧
    errorThreshold s3 = errorThreshold s ∧
    (is_Some (failures s) → is_Some (failures s1)) ∧
    Networks (networkState s1) !! token = Networks (networkState s) !! token ∧
    GoMap.entry (failures s1) token = GoMap.entry (failures s) token ∧
    Networks (networkState s3) !! token = Networks (networkState s2) !! token ∧
    GoMap.entry (failures s3) token = GoMap.entry (failures s2) token.
Proof.
  intros Hnd Hin. unfold runBackground.
  destruct (length _ =? 0)%nat eqn:Hlen.
  { apply Nat.eqb_eq, nil_length_inv in Hlen. rewrite Hlen in Hin.
    by apply elem_of_nil in Hin. }
  destruct (forEach _ s _) as [s3|msg] eqn:Hrun; cbn; [| done].
  intros [= <-].
  destruct (forEach_frame _ _ _ _ Hrun) as (Hdb & Hthr & _).
  apply list_elem_of_split in Hin as (l1 & l2 & Hl). rewrite Hl in *.
  apply NoDup_app in Hnd as (_ & Hdisj & [Hnotin2 _]%NoDup_cons).
  assert (token ∉ l1) as Hnotin1.
  { intros Hin1. apply (Hdisj token Hin1). by left. }
  rewrite forEach_app in Hrun.
  destruct (forEach _ s l1) as [s1|msg] eqn:Hrun1; cbn in Hrun; [| done].
  destruct (probeToken token (net token) s1) as [s2|msg] eqn:Hstep;
    cbn in Hrun; [| done].
  destruct (forEach_other net token l1 Hnotin1 s s1 Hrun1) as [Hn1 He1].
  destruct (forEach_other net token l2 Hnotin2 s2 s3 Hrun) as [Hn3 He3].
  destruct (forEach_frame _ _ _ _ Hrun1) as (_ & _ & _ & _ & Hal).
  exists s1, s2, s3. by split_and!.
Qed.

Lemma runBackground_failing_token (net : string → Probe) token s s' :
  is_Some (failures s) →
  NoDup (TokenList (database s)) →
  token ∈ TokenList (database s) →
  fails (net token) →
  minInt ≤ GoMap.get 0 (failures s) token < maxInt →
  runBackground net s = Ok s' →
  Networks (networkState s') !! token = Networks (networkState s) !! token ∧
  (GoMap.get 0 (failures s) token + 1 ≤ errorThreshold s →
   GoMap.entry (failures s') token = Some (GoMap.get 0 (failures s) token + 1) ∧
   token ∈ TokenList (database s')) ∧
  (errorThreshold s < GoMap.get 0 (failures s) token + 1 →
   GoMap.entry (failures s') token = None ∧
   token ∉ TokenList (database s')).
Proof.
  intros Hal Hnd Hin Hf Hrange Hrun.
  destruct (runBackground_around net token s s' Hnd Hin Hrun)
    as (s1 & s2 & s3 & Hstep & -> & Hdb & Hthr & Hal1 & Hn1 & He1 & Hn3 & He3).
  destruct (Hal1 Hal) as [g1 Hg1].
  assert (GoMap.get 0 (failures s1) token = GoMap.get 0 (failures s) token)
    as Hget by (by rewrite !get_entry, He1).
  rewrite probeToken_fails in Hstep by done.
  destruct (failedToken_allocated token s1 g1 Hg1 ltac:(by rewrite Hget))
    as (s2' & Hs2 & Hcount & _ & _ & Hn2 & _).
  rewrite Hstep in Hs2. injection Hs2 as <-.
  rewrite Hget in Hcount. rewrite Hcount in He3.
  destruct (deleteFailedConnections_lookup s3 token) as (Htok & Hent & Hns).
  rewrite Hns, Hn3, Hn2, Hn1, Hent, He3, Hthr. cbn. split; [done |].
  split; intros Hcmp.
  - destruct (Z.ltb_spec (errorThreshold s)
                (GoMap.get 0 (failures s) token + 1)); [lia |].
    split; [done |]. apply Htok. rewrite Hdb. split; [done |].
    intros (v & Hv & Hlt). rewrite He3 in Hv. injection Hv as <-. lia.
  - destruct (Z.ltb_spec (errorThreshold s)
                (GoMap.get 0 (failures s) token + 1)); [| lia].
    split; [done |]. intros [_ Hno]%Htok. apply Hno.
    eexists. split; [exact He3 | lia].
Qed.

(** A token of the store that records a failure in a pass, on a server
    with an allocated failure map.  Its snapshot stays.  If the count it
    reaches is within the threshold, the count is kept and the token
    stays in the store; if it exceeds the threshold, the sweep of the same
    pass evicts the token. *)
Theorem runBackground_failure (net : string → Probe) token s s' :
  is_Some (failures s) →
  NoDup (TokenList (database s)) →
  token ∈ TokenList (database s) →
  fails (net token) →
  minInt ≤ GoMap.get 0 (failures s) token < maxInt →
  runBackground net s = Ok s' →
  Networks (networkState s') !! token = Networks (networkState s) !! token ∧
  (GoMap.get 0 (failures s) token + 1 ≤ errorThreshold s →
   GoMap.entry (failures s') token = Some (GoMap.get 0 (failures s) token + 1) ∧
   token ∈ TokenList (database s')) ∧
  (errorThreshold s < GoMap.get 0 (failures s) token + 1 →
   GoMap.entry (failures s') token = None ∧
   token ∉ TokenList (database s')).
Proof. apply runBackground_failing_token. Qed.

(** A token of the store that brings a cluster with a worker in a pass:
    at the end of the pass its snapshot is what was received, it has no
    failure counter, and it is still in the store. *)
Theorem runBackground_success_stays (net : string → Probe) token received s s' :
  NoDup (TokenList (database s)) →
  token ∈ TokenList (database s) →
  net token = Scans received →
  (∃ cd, cd ∈ received ∧ Workers cd ≠ []) →
  runBackground net s = Ok s' →
  Networks (networkState s') !! token = Some {| Clusters := received |} ∧
  GoMap.entry (failures s') token = None ∧
  token ∈ TokenList (database s').
Proof.
  intros Hnd Hin Hnet Hex Hrun.
  destruct (runBackground_around net token s s' Hnd Hin Hrun)
    as (s1 & s2 & s3 & Hstep & -> & Hdb & Hthr & _ & _ & _ & Hn3 & He3).
  rewrite Hnet, probeToken_success in Hstep by done. injection Hstep as <-.
  cbn [networkState failures with_failures with_networkState Networks] in *.
  rewrite lookup_insert_eq in Hn3.
  rewrite entry_delete, decide_True in He3 by done.
  destruct (deleteFailedConnections_lookup s3 token) as (Htok & Hent & Hns).
  rewrite Hns, Hn3, Hent, He3. split_and!; try done.
  apply Htok. rewrite Hdb. split; [done |].
  intros (v & Hv & _). by rewrite He3 in Hv.
Qed.

Lemma passes_app (net : nat → string → Probe) (n m : nat) :
  ∀ i s,
    passes net i (n + m) s = s' ← passes net i n s; passes net (i + n) m s'.
Proof.
  induction n as [|n IH]; intros i s.
  - cbn. by rewrite Nat.add_0_r.
  - cbn. destruct (runBackground (net i) s) as [s1|msg]; cbn; [| done].
    rewrite IH. by rewrite Nat.add_succ_r.
Qed.

(** A token that records a failure in every pass, on an allocated failure
    map: as long as the count stays within the threshold the passes keep
    the token and count its failures. *)
Lemma passes_failing_within (net : nat → string → Probe) token (n : nat) :
  ∀ i s,
    is_Some (failures s) →
    NoDup (TokenList (database s)) →
    token ∈ TokenList (database s) →
    (∀ j, fails (net j token)) →
    0 ≤ GoMap.get 0 (failures s) token →
    GoMap.get 0 (failures s) token + Z.of_nat n ≤ errorThreshold s →
    errorThreshold s < maxInt →
    ∃ s',
      passes net i n s = Ok s' ∧
      GoMap.get 0 (failures s') token
        = GoMap.get 0 (failures s) token + Z.of_nat n ∧
      is_Some (failures s') ∧
      NoDup (TokenList (database s')) ∧
      token ∈ TokenList (database s') ∧
      errorThreshold s' = errorThreshold s.
Proof.
  induction n as [|n IH]; intros i s Hal Hnd Hin Hf Hpos Hle Hmax.
  - exists s. rewrite Z.add_0_r. by split_and!.
  - destruct (runBackground_completes (net i) s Hal) as (s1 & Hrun & Hal1).
    destruct (runBackground_failing_token (net i) token s s1 Hal Hnd Hin (Hf i)
                ltac:(unfold minInt; lia) Hrun) as (_ & Hkeep & _).
    destruct Hkeep as [Hcount Hin1]; [lia |].
    destruct (runBackground_config (net i) s s1 Hrun) as (Hthr & _).
    assert (GoMap.get 0 (failures s1) token
            = GoMap.get 0 (failures s) token + 1) as Hget
      by (by rewrite (get_entry (failures s1)), Hcount).
    destruct (IH (S i) s1) as (s' & Hpass & Hc & Hal' & Hnd' & Hin' & Hthr');
      try done.
    + by apply (runBackground_NoDup (net i) s).
    + lia.
    + rewrite Hget, Hthr. lia.
    + by rewrite Hthr.
    + exists s'. cbn. rewrite Hrun. cbn. split_and!; try done.
      * rewrite Hc, Hget. lia.
      * by rewrite Hthr', Hthr.
Qed.

(** The eviction policy over successive passes.  A token of the store
    without failure counter that records a failure in every pass, on a
    server with an allocated failure map and a threshold between 0 and the
    largest [int]: after [n] passes, [n] not above the threshold, its
    count is [n] and it is in the store; the pass after the threshold is
    reached evicts it. *)
Theorem eviction_after_threshold (net : nat → string → Probe) token (i : nat) s :
  is_Some (failures s) →
  GoMap.entry (failures s) token = None →
  NoDup (TokenList (database s)) →
  token ∈ TokenList (database s) →
  0 ≤ errorThreshold s < maxInt →
  (∀ j, fails (net j token)) →
  (∀ n : nat,
     Z.of_nat n ≤ errorThreshold s →
     ∃ s', passes net i n s = Ok s' ∧
           GoMap.get 0 (failures s') token = Z.of_nat n ∧
           token ∈ TokenList (database s')) ∧
  (∃ s', passes net i (S (Z.to_nat (errorThreshold s))) s = Ok s' ∧
         GoMap.entry (failures s') token = None ∧
         token ∉ TokenList (database s')).
Proof.
  intros Hal Hnone Hnd Hin [Hthr0 Hmax] Hf.
  assert (GoMap.get 0 (failures s) token = 0) as Hzero
    by (by rewrite get_entry, Hnone).
  split.
  - intros n Hn.
    destruct (passes_failing_within net token n i s)
      as (s' & Hpass & Hc & _ & _ & Hin' & _); try done; try lia.
    exists s'. split_and!; try done. lia.
  - destruct (passes_failing_within net token (Z.to_nat (errorThreshold s)) i s)
      as (s1 & Hpass & Hc & Hal1 & Hnd1 & Hin1 & Hthr1); try done; try lia.
    set (n := Z.to_nat (errorThreshold s)) in *.
    destruct (runBackground_completes (net (i + n)%nat) s1 Hal1)
      as (s' & Hrun & _).
    destruct (runBackground_failing_token (net (i + n)%nat) token s1 s' Hal1 Hnd1 Hin1
                (Hf _) ltac:(unfold minInt; lia) Hrun) as (_ & _ & Hevict).
    exists s'. split.
    + replace (S n) with (n + 1)%nat by lia.
      rewrite passes_app, Hpass. cbn. by rewrite Hrun.
    + apply Hevict. lia.
Qed.

(** On a server whose failure map is allocated nothing panics: a pass
    completes, any number of passes complete, the map stays allocated and
    [Start] never ends in a crash. *)
Theorem runBackground_allocated s :
  is_Some (failures s) →
  (∀ net : string → Probe,
     ∃ s', runBackground net s = Ok s' ∧ is_Some (failures s')) ∧
  (∀ (net : nat → string → Probe) (n i : nat),
     ∃ s', passes net i n s = Ok s' ∧ is_Some (failures s')) ∧
  (∀ ctxDone (net : nat → string → Probe) (fuel i : nat) msg,
     Start ctxDone net fuel i s ≠ Crashed msg).
Proof.
  intros Hal. split_and!.
  - intros net. by apply runBackground_completes.
  - intros net n. revert s Hal.
    induction n as [|n IH]; intros s Hal i; [by exists s |].
    destruct (runBackground_completes (net i) s Hal) as (s1 & Hrun & Hal1).
    destruct (IH s1 Hal1 (S i)) as (s' & Hpass & Hal').
    exists s'. cbn. rewrite Hrun. by cbn.
  - intros ctxDone net fuel. revert s Hal.
    induction fuel as [|fuel IH]; intros s Hal i msg; [done |].
    cbn. destruct (ctxDone i); [done |].
    destruct (runBackground_completes (net i) s Hal) as (s1 & -> & Hal1).
    by apply IH.
Qed.

(** On a server whose failure map is nil, as [NewDiscoveryServer] builds
    it, a pass panics exactly when some token of the store records a
    failure and completes exactly when every token brings a cluster with
    a worker.  When it completes the map is still nil and no token was
    evicted. *)
Theorem runBackground_nil_failures (net : string → Probe) s :
  failures s = None →
  ((∃ token, token ∈ TokenList (database s) ∧ fails (net token)) ↔
   runBackground net s = Panic "assignment to entry in nil map") ∧
  ((∀ token, token ∈ TokenList (database s) → ¬ fails (net token)) ↔
   ∃ s', runBackground net s = Ok s') ∧
  (∀ s', runBackground net s = Ok s' →
         failures s' = None ∧ database s' = database s).
Proof.
  intros Hnil. pose proof (runBackground_nil_cases net s Hnil) as Hpass.
  destruct (runBackground net s) as [s1|msg].
  - destruct Hpass as (Hn & Hdb & Hall). split_and!.
    + split; [| done]. intros (token & Hin & Hf). by destruct (Hall token Hin).
    + split; [by exists s1 | done].
    + by intros s' [= <-].
  - destruct Hpass as (-> & token & Hin & Hf). split_and!.
    + split; [done |]. intros _. by exists token.
    + split; [| by intros [s' Hs']]. intros Hall. by destruct (Hall token Hin).
    + done.
Qed.

(** On a server whose failure map is allocated, recording a failure adds
    exactly one to the token's counter, a first failure making it 1, as
    long as the counter is below the largest [int]; the other counters,
    the network state, the store and the configuration stay. *)
Theorem failedToken_increments token s :
  is_Some (failures s) →
  minInt ≤ GoMap.get 0 (failures s) token < maxInt →
  ∃ s',
    failedToken token s = Ok s' ∧
    GoMap.get 0 (failures s') token = GoMap.get 0 (failures s) token + 1 ∧
    (GoMap.entry (failures s) token = None →
     GoMap.entry (failures s') token = Some 1) ∧
    (∀ t, t ≠ token →
          GoMap.entry (failures s') t = GoMap.entry (failures s) t) ∧
    networkState s' = networkState s ∧
    database s' = database s ∧
    errorThreshold s' = errorThreshold s ∧
    connectionTime s' = connectionTime s.
Proof.
  intros [g Hg] Hrange.
  destruct (failedToken_allocated token s g Hg Hrange)
    as (s' & Hstep & Hcount & Hfirst & Hother & Hns & Hdb & Hthr).
  exists s'. split_and!; try done.
  - by rewrite (get_entry (failures s')), Hcount.
  - by apply (failedToken_frame token s s').
Qed.

End PassOutcome.

(** ** The outer loop on the server [NewDiscoveryServer] builds *)

(** C9, on the code.  The claim wants a failure inside a pass to be
    followed by the next iteration, [Start] ending only by a return on
    cancellation.  On the server [NewDiscoveryServer] builds the failure
    map is nil: when a token of the store records a failure in the first
    pass, that pass panics and [Start] ends as a crash; it does not go on
    to the next iteration and never returns, even if the context is
    cancelled afterwards. *)
Theorem Start_crashes_on_failure (db : Database) (dur failureThreshold : Z)
  (ctxDone : nat → bool) (net : nat → string → Probe) (token : string) :
  ctxDone 0%nat = false →
  token ∈ TokenList db →
  fails (net 0%nat token) →
  (∀ fuel,
     Start ctxDone net (S fuel) 0 (NewDiscoveryServer db dur failureThreshold)
       = Crashed "assignment to entry in nil map") ∧
  (∀ fuel err s',
     Start ctxDone net fuel 0 (NewDiscoveryServer db dur failureThreshold)
       ≠ Returned err s').
Proof.
  intros Hdone Hin Hf.
  assert (runBackground (net 0%nat) (NewDiscoveryServer db dur failureThreshold)
          = Panic "assignment to entry in nil map") as Hpanic.
  { pose proof (runBackground_nil_cases (net 0%nat)
                  (NewDiscoveryServer db dur failureThreshold) eq_refl) as Hpass.
    destruct (runBackground _ _) as [s1|msg].
    - destruct Hpass as (_ & _ & Hall). by destruct (Hall token Hin).
    - by destruct Hpass as (-> & _). }
  assert (∀ fuel,
            Start ctxDone net (S fuel) 0
              (NewDiscoveryServer db dur failureThreshold)
            = Crashed "assignment to entry in nil map") as Hcrash.
  { intros fuel. cbn [Start]. by rewrite Hdone, Hpanic. }
  split; [exact Hcrash |].
  intros [|fuel] err s'; [done |]. by rewrite Hcrash.
Qed.

(** ** Invariants of the servers [NewDiscoveryServer] builds *)

Section Reachable.

Context `{P2P}.

Lemma forEach_clusters_satisfy (P : ClusterData → Prop)
  (net : string → Probe) (l : list string) :
  (∀ token received, net token = Scans received → Forall P received) →
  ∀ s s',
    clusters_satisfy P s →
    forEach (λ s t, probeToken t (net t) s) s l = Ok s' →
    clusters_satisfy P s'.
Proof.
  intros Hnet. induction l as [|t l IH]; intros s s' Hinv Hrun.
  - by injection Hrun as <-.
  - cbn in Hrun.
    destruct (probeToken t (net t) s) as [s2|msg] eqn:Hstep; [| done].
    cbn in Hrun. apply (IH s2); [| done].
    destruct (fails_or_succeeds (net t)) as [Hf|(received & Hp & Hex)].
    + rewrite probeToken_fails in Hstep by done.
      apply failedToken_networkState in Hstep.
      unfold clusters_satisfy. by rewrite Hstep.
    + rewrite Hp, probeToken_success in Hstep by done. injection Hstep as <-.
      intros token n cd. cbn.
      destruct (decide (t = token)) as [->|Hne].
      * rewrite lookup_insert_eq. intros [= <-] Hin. cbn in Hin.
        specialize (Hnet token received Hp). rewrite Forall_forall in Hnet. auto.
      * rewrite lookup_insert_ne by done. apply Hinv.
Qed.

Lemma runBackground_clusters_satisfy (P : ClusterData → Prop)
  (net : string → Probe) (s s' : DiscoveryServer) :
  (∀ token received, net token = Scans received → Forall P received) →
  clusters_satisfy P s →
  runBackground net s = Ok s' →
  clusters_satisfy P s'.
Proof.
  intros Hnet Hinv. unfold runBackground.
  destruct (length _ =? 0)%nat; [by intros [= <-] |].
  destruct (forEach _ s _) as [s1|msg] eqn:Hrun; cbn; [| done].
  intros [= <-]. unfold clusters_satisfy, deleteFailedConnections.
  rewrite sweepOver_networkState.
  by apply (forEach_clusters_satisfy P net (TokenList (database s)) Hnet s s1).
Qed.

(** On every server that [NewDiscoveryServer] builds and passes drive, the
    failure map is nil and the threshold and the connection time are not
    zero; so a pass that completes on it evicts no token. *)
Theorem reachable_never_evicts (s : DiscoveryServer) :
  reachable s →
  failures s = None ∧
  errorThreshold s ≠ 0 ∧
  connectionTime s ≠ 0 ∧
  ∀ net s', runBackground net s = Ok s' → database s' = database s.
Proof.
  intros Hreach.
  assert (failures s = None ∧ errorThreshold s ≠ 0 ∧ connectionTime s ≠ 0)
    as (Hnil & Hthr & Hct).
  { induction Hreach as [db dur thr | s s' net Hreach IH Hsound Hrun
                         | s db Hreach IH].
    - unfold NewDiscoveryServer. cbn. split_and!; [done | |].
      + by destruct (Z.eqb_spec thr 0).
      + by destruct (Z.eqb_spec dur 0).
    - destruct IH as (Hnil & Hthr & Hct).
      pose proof (runBackground_nil_cases net s Hnil) as Hpass.
      rewrite Hrun in Hpass. destruct Hpass as (Hnil' & _).
      destruct (runBackground_config net s s' Hrun) as (-> & ->).
      by split_and!.
    - exact IH. }
  split_and!; try done. intros net s' Hrun.
  pose proof (runBackground_nil_cases net s Hnil) as Hpass.
  rewrite Hrun in Hpass. by destruct Hpass as (_ & Hdb & _).
Qed.

(** On every such server each cluster of the network state is typed
    worker or federated and has a NetworkID without underscore. *)
Theorem reachable_well_typed (s : DiscoveryServer) :
  reachable s → clusters_satisfy well_typed s.
Proof.
  induction 1 as [db dur thr | s s' net Hreach IH Hsound Hrun | s db Hreach IH].
  - intros token n cd Hn. unfold NewDiscoveryServer in Hn.
    cbn [networkState Networks] in Hn. by rewrite lookup_empty in Hn.
  - eapply runBackground_clusters_satisfy; [| exact IH | exact Hrun].
    intros token received Hr.
    destruct (Hsound token received Hr) as [samples Hfl].
    by apply (flushes_typed samples).
  - exact IH.
Qed.

End Reachable.

(** * Examples, witnesses and counterexamples *)

Example Contains_ex1 : GoStrings.Contains "net1_WORKER_ID" "WORKER_ID" = true.
Proof. reflexivity. Qed.

Example Contains_ex2 : GoStrings.Contains "net1WORKER" "_" = false.
Proof. reflexivity. Qed.

Example Split_ex1 : GoStrings.Split "a_b__c" "_" = ["a"; "b"; ""; "c"].
Proof. reflexivity. Qed.

Example Split_ex2 : GoStrings.Split "a--b-c" "--" = ["a"; "b-c"].
Proof. reflexivity. Qed.

Example wrap_int_ex : wrap_int (maxInt + 1) = minInt.
Proof. reflexivity. Qed.

(** The first scenario of the specification: the pass stores the cluster
    found under [net1_WORKER_ID]. *)
Example scenario_net1 : runBackground demoNet demoNew = Ok demoAfter.
Proof. vm_compute. reflexivity. Qed.

(** The second scenario, on a server whose failure map is allocated: four
    failing passes with threshold 3 evict [net2]. *)
Example scenario_net2_allocated :
  passes (λ _ _, NewNodeFails) 0 4
    (allocated (NewDiscoveryServer {| tokens := ["net2"] |} 0 3))
  = Ok (allocated (NewDiscoveryServer {| tokens := [] |} 0 3)).
Proof. vm_compute. reflexivity. Qed.

(** Three failing passes do not: the count has reached the threshold, not
    exceeded it. *)
Example scenario_net2_three_passes :
  passes (λ _ _, NewNodeFails) 0 3
    (allocated (NewDiscoveryServer {| tokens := ["net2"] |} 0 3))
  = Ok (with_failures (Some {[ "net2" := 3 ]})
          (NewDiscoveryServer {| tokens := ["net2"] |} 0 3)).
Proof. vm_compute. reflexivity. Qed.

(** The third scenario, on an allocated failure map: two passes without
    workers, then one with a worker cluster; the count is reset and the
    token stays. *)
Example scenario_net3_allocated :
  passes (λ i _, if (i <? 2)%nat then Scans [] else Scans [demoCluster]) 0 3
    (allocated (NewDiscoveryServer {| tokens := ["net3"] |} 0 3))
  = Ok (with_networkState
          {| Networks := {[ "net3" := {| Clusters := [demoCluster] |} ]} |}
          (allocated (NewDiscoveryServer {| tokens := ["net3"] |} 0 3))).
Proof. vm_compute. reflexivity. Qed.

(** C1, at [demoServer]: [net2] (count 4) is evicted, [net3] (count 3, the
    threshold) is kept. *)
Lemma deleteFailedConnections_evicts_witness :
  (("net2" ∉ TokenList (database (deleteFailedConnections demoServer))) ∧
   GoMap.entry (failures (deleteFailedConnections demoServer)) "net2" = None) ∧
  (GoMap.entry (failures (deleteFailedConnections demoServer)) "net3" = Some 3 ∧
   "net3" ∈ TokenList (database (deleteFailedConnections demoServer))).
Proof.
  destruct (deleteFailedConnections_evicts demoServer) as (Hgt & Heq & _).
  split.
  - apply (Hgt "net2" 4); vm_compute; reflexivity.
  - destruct (Heq "net3" 3) as [Hkept Hstore]; [vm_compute; reflexivity.. |].
    split; [exact Hkept |]. apply Hstore.
    unfold demoServer, TokenList. cbn. do 2 right. left.
Defined.

(** C2, at [demoServer]: a successful probe of [net2] replaces its
    snapshot and clears its count of 4. *)
Lemma probeToken_replaces_network_witness :
  (∃ cd, cd ∈ [demoCluster; demoCluster] ∧ Workers cd ≠ []) ∧
  ∃ s',
    probeToken "net2" (Scans [demoCluster; demoCluster]) demoServer = Ok s' ∧
    Networks (networkState s') !! "net2"
      = Some {| Clusters := [demoCluster; demoCluster] |} ∧
    GoMap.entry (failures s') "net2" = None.
Proof.
  assert (∃ cd, cd ∈ [demoCluster; demoCluster] ∧ Workers cd ≠ []) as Hex
    by (exists demoCluster; split; [left | discriminate]).
  split; [exact Hex |].
  destruct (probeToken_replaces_network "net2" _ demoServer Hex)
    as (s' & Hstep & Hnet & _ & Hcount & _).
  exists s'. by split_and!.
Defined.

(** C4 as stated fails at [demoServer]: the sweep evicts [net2] and clears
    its counter, and the snapshot of [net2] is still in the network
    state. *)
Lemma eviction_keeps_network_entry :
  ("net2" ∉ TokenList (database (deleteFailedConnections demoServer))) ∧
  GoMap.entry (failures (deleteFailedConnections demoServer)) "net2" = None ∧
  Networks (networkState (deleteFailedConnections demoServer)) !! "net2"
    = Some {| Clusters := [demoCluster] |}.
Proof.
  split_and!; [| vm_compute; reflexivity..].
  vm_compute. intros Hin. repeat (apply elem_of_cons in Hin as [Heq|Hin]; [discriminate |]).
  by apply elem_of_nil in Hin.
Qed.

(** C4 as amended, at [demoServer]. *)
Lemma deleteFailedConnections_eviction_action_witness :
  GoMap.entry (failures (deleteFailedConnections demoServer)) "net2" = None ∧
  ("net2" ∉ TokenList (database (deleteFailedConnections demoServer))) ∧
  networkState (deleteFailedConnections demoServer) = networkState demoServer.
Proof.
  apply (deleteFailedConnections_eviction_action demoServer "net2" 4);
    vm_compute; reflexivity.
Defined.

(** C5 as stated fails at the key [n_WORKER_ID_FEDERATED_ID]: it satisfies
    the federated rule, yet the scanner types its cluster as worker. *)
Lemma federated_key_typed_worker :
  federatedKey (H := demoP2P) "n_WORKER_ID_FEDERATED_ID" ∧
  Type' (classifyKey (H := demoP2P) "n_WORKER_ID_FEDERATED_ID").2 ≠ "federated" ∧
  flush (retrieveNetworkData (H := demoP2P)
           [ {[ "n_WORKER_ID_FEDERATED_ID" := [online "w1"] ]} ])
  = [ {| Workers := ["w1"]; Type' := "worker"; NetworkID := "n" |} ].
Proof.
  split_and!.
  - apply isFederatedCluster_spec. reflexivity.
  - vm_compute. discriminate.
  - vm_compute. reflexivity.
Qed.

(** C5 as amended, at the key [net1_WORKER_ID]. *)
Lemma classifyKey_rules_witness :
  Type' (classifyKey (H := demoP2P) "net1_WORKER_ID").2 = "worker" ∧
  before_first_underscore "net1" "net1_WORKER_ID" ∧
  retrieveNetworkData (H := demoP2P) demoLedger !! "other" = None.
Proof.
  destruct (classifyKey_rules (H := demoP2P) "net1_WORKER_ID")
    as (_ & Hty & _ & Hid & _).
  destruct (classifyKey_rules (H := demoP2P) "other")
    as (_ & _ & _ & _ & _ & _ & Hnone).
  split_and!.
  - apply Hty. apply isWorkerCluster_spec. reflexivity.
  - apply Hid. by exists "net1", "WORKER_ID".
  - apply Hnone.
    + intros Hw%isWorkerCluster_spec. discriminate.
    + intros Hf%isFederatedCluster_spec. discriminate.
Defined.

(** C6, at the values online(A), offline(B) under [net1_WORKER_ID]. *)
Lemma scanKey_online_workers_witness :
  workerKey (H := demoP2P) "net1_WORKER_ID" ∧
  flushes
    (retrieveNetworkData (H := demoP2P)
       [ {[ "net1_WORKER_ID" := [online "A"; offline "B"] ]} ])
    [ {| Workers := ["A"]; Type' := "worker"; NetworkID := "net1" |} ].
Proof.
  assert (workerKey (H := demoP2P) "net1_WORKER_ID") as Hw
    by (apply isWorkerCluster_spec; reflexivity).
  split; [exact Hw |].
  destruct (scanKey_online_workers (H := demoP2P) "net1_WORKER_ID" ∅
              [online "A"; offline "B"] (or_introl Hw))
    as (_ & _ & Hpair & _).
  by apply (Hpair (online "A") (offline "B") "A" "B").
Defined.

(** C7, at the state the first scenario reaches. *)
Lemma reachable_workers_nonempty_witness :
  reachable (H := demoP2P) demoAfter ∧ workers_nonempty demoAfter.
Proof.
  assert (reachable (H := demoP2P) demoAfter) as Hreach.
  { apply (reachable_pass demoNew demoAfter demoNet).
    - apply reachable_new.
    - intros token received Hr. exists demoLedger.
      apply Scans_inj in Hr. rewrite <- Hr. apply flush_flushes.
    - vm_compute. reflexivity. }
  split; [exact Hreach |].
  by apply (reachable_workers_nonempty (H := demoP2P)).
Defined.

(** C8, at [demoIdle]: the pass returns at once, although a sweep would
    have removed the stale counter. *)
Lemma runBackground_no_tokens_witness :
  TokenList (database demoIdle) = [] ∧
  runBackground demoNet demoIdle = Ok demoIdle ∧
  deleteFailedConnections demoIdle ≠ demoIdle.
Proof.
  split_and!.
  - reflexivity.
  - by apply runBackground_no_tokens.
  - vm_compute. discriminate.
Defined.

(** [Start] at a context cancelled when the third iteration starts, on a
    ledger where every probe succeeds. *)
Lemma Start_returns_iff_witness :
  Start (λ i, (2 <=? i)%nat) (λ _, demoNet) 5 0 demoNew
  = Returned "context cancelled" demoAfter.
Proof.
  apply Start_returns_iff. split; [reflexivity |].
  exists 2%nat. split_and!; [lia | reflexivity | | vm_compute; reflexivity].
  intros [|[|j]] Hj; [reflexivity | reflexivity | lia].
Defined.

(** ** Witnesses of the further properties *)

Lemma reachable_never_evicts_witness :
  failures demoAfter = None ∧ errorThreshold demoAfter ≠ 0.
Proof.
  assert (reachable (H := demoP2P) demoAfter) as Hreach.
  { apply (reachable_pass demoNew demoAfter demoNet).
    - apply reachable_new.
    - intros token received Hr. exists demoLedger.
      apply Scans_inj in Hr. rewrite <- Hr. apply flush_flushes.
    - vm_compute. reflexivity. }
  destruct (reachable_never_evicts (H := demoP2P) demoAfter Hreach)
    as (Hnil & Hthr & _).
  by split.
Defined.

Lemma reachable_well_typed_witness : clusters_satisfy well_typed demoAfter.
Proof.
  apply (reachable_well_typed (H := demoP2P)).
  apply (reachable_pass demoNew demoAfter demoNet).
  - apply reachable_new.
  - intros token received Hr. exists demoLedger.
    apply Scans_inj in Hr. rewrite <- Hr. apply flush_flushes.
  - vm_compute. reflexivity.
Defined.

Lemma runBackground_nil_failures_witness :
  (∀ token, token ∈ TokenList (database demoNew) → ¬ fails (demoNet token)) ∧
  failures demoAfter = None ∧
  database demoAfter = database demoNew.
Proof.
  destruct (runBackground_nil_failures demoNet demoNew eq_refl)
    as (_ & Hok & Hkeep).
  split.
  - apply Hok. exists demoAfter. apply scenario_net1.
  - apply Hkeep, scenario_net1.
Defined.

Lemma runBackground_allocated_witness :
  ∃ s', passes (λ _ _, LedgerFails) 0 5 demoServer = Ok s' ∧
        is_Some (failures s').
Proof.
  destruct (runBackground_allocated demoServer) as (_ & Hpasses & _).
  - by eexists.
  - apply Hpasses.
Defined.

Lemma demoServer_pass : runBackground (λ _, NewNodeFails) demoServer = Ok demoSwept.
Proof. vm_compute. reflexivity. Qed.

Lemma demoServer_NoDup : NoDup (TokenList (database demoServer)).
Proof. compute_done. Qed.

Lemma runBackground_failure_witness :
  (GoMap.entry (failures demoSwept) "net1" = Some 1 ∧
   "net1" ∈ TokenList (database demoSwept)) ∧
  (GoMap.entry (failures demoSwept) "net3" = None ∧
   "net3" ∉ TokenList (database demoSwept)).
Proof.
  split.
  - destruct (runBackground_failure (λ _, NewNodeFails) "net1"
                demoServer demoSwept) as (_ & Hkeep & _).
    + by eexists.
    + apply demoServer_NoDup.
    + compute_done.
    + exact I.
    + vm_compute. by split.
    + apply demoServer_pass.
    + apply Hkeep. vm_compute. discriminate.
  - destruct (runBackground_failure (λ _, NewNodeFails) "net3"
                demoServer demoSwept) as (_ & _ & Hevict).
    + by eexists.
    + apply demoServer_NoDup.
    + compute_done.
    + exact I.
    + vm_compute. by split.
    + apply demoServer_pass.
    + apply Hevict. vm_compute. reflexivity.
Defined.

Lemma runBackground_success_stays_witness :
  Networks (networkState demoAfter) !! "net1"
    = Some {| Clusters := [demoCluster] |} ∧
  GoMap.entry (failures demoAfter) "net1" = None ∧
  "net1" ∈ TokenList (database demoAfter).
Proof.
  apply (runBackground_success_stays demoNet "net1" [demoCluster] demoNew).
  - compute_done.
  - compute_done.
  - vm_compute. reflexivity.
  - exists demoCluster. split; [by left | discriminate].
  - apply scenario_net1.
Defined.

Lemma runBackground_frame_witness :
  errorThreshold demoSwept = errorThreshold demoServer ∧
  is_Some (Networks (networkState demoSwept) !! "net2").
Proof.
  destruct (runBackground_frame (λ _, NewNodeFails) demoServer demoSwept
              demoServer_pass) as (Hthr & _ & _ & Hmono & _).
  split; [exact Hthr |]. apply Hmono. by eexists.
Defined.

Lemma sweepOver_any_order_witness :
  GoMap.entry
    (failures
       (sweepOver (reverse (GoMap.range (failures demoServer))) demoServer))
    "net2"
  = GoMap.entry (failures (deleteFailedConnections demoServer)) "net2".
Proof.
  apply (sweepOver_any_order demoServer
           (reverse (GoMap.range (failures demoServer))) "net2").
  apply reverse_Permutation.
Defined.

Lemma scanStorage_any_order_witness :
  scanEntries (H := demoP2P) ∅
    (reverse (map_to_list
       ({[ "net1_WORKER_ID" := [offline "w1"];
           "net1_FEDERATED_ID" := [garbage; online "w2"] ]}
          : gmap string (list (option NodeData)))))
  = scanStorage (H := demoP2P) ∅
      {[ "net1_WORKER_ID" := [offline "w1"];
         "net1_FEDERATED_ID" := [garbage; online "w2"] ]}.
Proof.
  apply (scanStorage_any_order (H := demoP2P)). apply reverse_Permutation.
Defined.

Lemma retrieveNetworkData_provenance_witness :
  ∃ data vs,
    data ∈ demoRounds ∧ data !! "net1_WORKER_ID" = Some vs ∧
    onlineIDs (H := demoP2P) vs ≠ [].
Proof.
  destruct (retrieveNetworkData_provenance (H := demoP2P) demoRounds
              "net1_WORKER_ID"
              {| Workers := ["w1"]; Type' := "worker"; NetworkID := "net1" |})
    as (data & vs & Hin & Hd & _ & Hon & _).
  - vm_compute. reflexivity.
  - by exists data, vs.
Defined.

Lemma Start_not_cancelled_witness :
  Start (λ _, false) (λ _, demoNet) 3 0 demoNew = StillRunning demoAfter.
Proof.
  rewrite (Start_not_cancelled (λ _, false) (λ _, demoNet) 3 0 demoNew)
    by done.
  vm_compute. reflexivity.
Defined.

Lemma failedToken_increments_witness :
  ∃ s', failedToken "net3" demoServer = Ok s' ∧
        GoMap.get 0 (failures s') "net3" = 4.
Proof.
  destruct (failedToken_increments "net3" demoServer)
    as (s' & Hstep & Hcount & _).
  - by eexists.
  - vm_compute. by split.
  - exists s'. split; [exact Hstep |]. rewrite Hcount. vm_compute. reflexivity.
Defined.

Lemma failedToken_wraps_witness :
  ∃ s', failedToken "net1" demoSaturated = Ok s' ∧
        GoMap.entry (failures s') "net1" = Some minInt.
Proof.
  apply (failedToken_wraps "net1" demoSaturated {[ "net1" := maxInt ]} eq_refl).
  vm_compute. reflexivity.
Defined.

Lemma eviction_after_threshold_witness :
  ∃ s',
    passes (λ _ _, NewNodeFails) 0 4
      (allocated (NewDiscoveryServer {| tokens := ["net2"] |} 0 3)) = Ok s' ∧
    GoMap.entry (failures s') "net2" = None ∧
    "net2" ∉ TokenList (database s').
Proof.
  destruct (eviction_after_threshold (λ _ _, NewNodeFails) "net2" 0
              (allocated (NewDiscoveryServer {| tokens := ["net2"] |} 0 3)))
    as (_ & Hevict).
  - by eexists.
  - vm_compute. reflexivity.
  - compute_done.
  - compute_done.
  - vm_compute. by split.
  - intros j. exact I.
  - exact Hevict.
Defined.

(** C9, at a store with the token [net2] that fails to connect, the
    context being cancelled when the second iteration would start. *)
Lemma Start_crashes_on_failure_witness :
  Start (λ i, (1 <=? i)%nat) (λ _ _, NewNodeFails) 5 0
    (NewDiscoveryServer {| tokens := ["net2"] |} 0 3)
  = Crashed "assignment to entry in nil map".
Proof.
  destruct (Start_crashes_on_failure {| tokens := ["net2"] |} 0 3
              (λ i, (1 <=? i)%nat) (λ _ _, NewNodeFails) "net2")
    as (Hcrash & _).
  - reflexivity.
  - by left.
  - exact I.
  - apply Hcrash.
Defined.
